(** * panoptic_mapping: voxel codec, voxel fusion, block streams and the
      sub-map collection

    Shallow embedding of
    - [panoptic_mapping/src/tools/serialization.cpp] (top-N selection,
      bit packing, the per-voxel codec, block (de)serialisation and
      voxel fusion), and
    - [panoptic_mapping/core/submap_collection.cpp] (the id-indexed
      sub-map registry).

    Unsigned machine integers are integers of [Z] with the wrap-around
    written out; vectors are lists; [std::unordered_map<int, size_t>] is a
    [gmap Z nat]; fallible code returns a [result]. *)

From Stdlib Require Import ZArith QArith Lia.
From stdpp Require Import base option list sorting gmap.

Local Open Scope Z_scope.

(** ** Failure modes of the C++ code *)

Inductive error : Type :=
| CheckFailed        (* a glog CHECK_* aborted the process *)
| OutOfRange         (* std::vector::at threw std::out_of_range *)
| EmptyHeapTop.      (* top()/pop() on an empty std::priority_queue *)

Inductive result (A : Type) : Type :=
| Ok (a : A)
| Err (e : error).
Arguments Ok {A} a.
Arguments Err {A} e.

#[global] Instance result_ret : MRet result := @Ok.
#[global] Instance result_bind : MBind result := λ A B f m,
  match m with
  | Ok a => f a
  | Err e => Err e
  end.

Definition is_Ok {A} (r : result A) : Prop := ∃ a, r = Ok a.

(** [v.at(i)] *)
Definition at_ {A} (v : list A) (i : nat) : result A :=
  match v !! i with
  | Some x => Ok x
  | None => Err OutOfRange
  end.

(** ** Data model *)

(** [panoptic_mapping::ClassVoxel].  The struct is declared in a header;
    the fields are the ones serialization.cpp reads and writes. *)
Record ClassVoxel : Type := mkClassVoxel {
  counts : list Z;
  current_index : Z;
  belongs_count : Z;
  foreign_count : Z;
  is_gt : bool
}.

(** [panoptic_mapping::ClassUncertaintyVoxel]: a [ClassVoxel] with one more
    scalar field.  The scalar type is left open. *)
Record ClassUncertaintyVoxel (Scalar : Type) : Type := mkClassUncertaintyVoxel {
  base_voxel : ClassVoxel;
  uncertainty_value : Scalar
}.
Arguments mkClassUncertaintyVoxel {Scalar} _ _.
Arguments base_voxel {Scalar} _.
Arguments uncertainty_value {Scalar} _.

(** ** Voxel fusion *)

Section Fusion.
(** [classVoxelBelongingProbability] lives in a header; the merge only
    compares two of its values with [>]. *)
Context {Prob : Type}.
Variable classVoxelBelongingProbability : ClassVoxel → Prob.
Variable prob_gt : Prob → Prob → bool.

(** The guard of the first [if] of the [ClassVoxel] merge. *)
Definition adopts (voxel_A voxel_B : ClassVoxel) : bool :=
  is_gt voxel_A
  || (prob_gt (classVoxelBelongingProbability voxel_A)
              (classVoxelBelongingProbability voxel_B)
      && negb (is_gt voxel_B)).

(** [mergeVoxelAIntoVoxelB<ClassVoxel>]; the result is the new [*voxel_B]. *)
Definition mergeVoxelAIntoVoxelB (voxel_A voxel_B : ClassVoxel) : ClassVoxel :=
  let voxel_B :=
    if adopts voxel_A voxel_B then
      {| counts := counts voxel_A;
         current_index := current_index voxel_A;
         belongs_count := belongs_count voxel_A;
         foreign_count := foreign_count voxel_A;
         is_gt := is_gt voxel_B |}
    else voxel_B in
  if is_gt voxel_A then
    {| counts := counts voxel_B;
       current_index := current_index voxel_B;
       belongs_count := belongs_count voxel_B;
       foreign_count := foreign_count voxel_B;
       is_gt := true |}
  else voxel_B.

Context {Scalar : Type}.
Variable scalar_add : Scalar → Scalar → Scalar.
(** division of a scalar by the literal 2 *)
Variable scalar_half : Scalar → Scalar.

(** [mergeVoxelAIntoVoxelB<ClassUncertaintyVoxel>] *)
Definition mergeUncertaintyVoxelAIntoVoxelB
    (voxel_A voxel_B : ClassUncertaintyVoxel Scalar) : ClassUncertaintyVoxel Scalar :=
  let merged := mergeVoxelAIntoVoxelB (base_voxel voxel_A) (base_voxel voxel_B) in
  if negb (is_gt merged) then
    {| base_voxel := merged;
       uncertainty_value :=
         scalar_half (scalar_add (uncertainty_value voxel_B) (uncertainty_value voxel_A)) |}
  else
    {| base_voxel := merged; uncertainty_value := uncertainty_value voxel_B |}.
End Fusion.

(** Modelled from the spec: [classVoxelBelongingProbability] is declared
    outside serialization.cpp; the spec gives it as
    belongs_count / (belongs_count + foreign_count), and 0 when both are 0. *)
Definition specBelongingProbability (v : ClassVoxel) : Q :=
  if (belongs_count v + foreign_count v =? 0)%Z then 0%Q
  else (inject_Z (belongs_count v) / inject_Z (belongs_count v + foreign_count v))%Q.

Definition Q_gt (a b : Q) : bool :=
  match (a ?= b)%Q with Gt => true | _ => false end.

Definition Q_half (a : Q) : Q := (a / 2)%Q.

(** ** Sub-map collection *)

Section Collection.
(** [Submap] is declared in its own header; the collection only calls
    [getID] on it. *)
Context {Submap : Type}.
Variable getID : Submap → Z.

Record SubmapCollection : Type := mkSubmapCollection {
  submaps_ : list Submap;           (* std::vector<std::unique_ptr<Submap>> *)
  id_to_index_ : gmap Z nat         (* std::unordered_map<int, size_t> *)
}.

(** A default-constructed collection. *)
Definition empty_collection : SubmapCollection :=
  {| submaps_ := []; id_to_index_ := ∅ |}.

Definition addSubmap (submap : Submap) (c : SubmapCollection) : SubmapCollection :=
  {| submaps_ := submaps_ c ++ [submap];
     id_to_index_ := <[getID submap := length (submaps_ c)]> (id_to_index_ c) |}.

(** [new_submap] is the object built by
    [std::make_unique<Submap>(voxel_size, voxels_per_side)]; the
    constructor, which picks the id, is not part of this file. *)
Definition createSubmap (new_submap : Submap) (c : SubmapCollection)
    : Submap * SubmapCollection :=
  let submaps := submaps_ c ++ [new_submap] in
  (new_submap,
   {| submaps_ := submaps;
      id_to_index_ := <[getID new_submap := (length submaps - 1)%nat]> (id_to_index_ c) |}).

(** The index correction applied to every remaining pair. *)
Definition shift_down (previous_index : nat) (index : nat) : nat :=
  if decide (previous_index < index)%nat then (index - 1)%nat else index.

(** [removeSubmap]; [None] stands for [submaps_.erase] called with an
    iterator past the end, which the standard leaves undefined. *)
Definition removeSubmap (id : Z) (c : SubmapCollection)
    : option (bool * SubmapCollection) :=
  match id_to_index_ c !! id with
  | None => Some (false, c)
  | Some previous_index =>
      if decide (previous_index < length (submaps_ c))%nat then
        Some (true,
              {| submaps_ := delete previous_index (submaps_ c);
                 id_to_index_ := shift_down previous_index <$> delete id (id_to_index_ c) |})
      else None
  end.

Definition submapIdExists (id : Z) (c : SubmapCollection) : bool :=
  bool_decide (is_Some (id_to_index_ c !! id)).

Definition clear (c : SubmapCollection) : SubmapCollection :=
  {| submaps_ := []; id_to_index_ := ∅ |}.

(** The states a collection goes through: any sequence of the four
    mutating operations from the empty collection, where a created or
    added sub-map carries an id that is not in the index at that time. *)
Inductive reachable : SubmapCollection → Prop :=
| reachable_empty : reachable empty_collection
| reachable_create c s :
    reachable c → id_to_index_ c !! getID s = None →
    reachable (createSubmap s c).2
| reachable_add c s :
    reachable c → id_to_index_ c !! getID s = None →
    reachable (addSubmap s c)
| reachable_remove c id r c' :
    reachable c → removeSubmap id c = Some (r, c') → reachable c'
| reachable_clear c :
    reachable c → reachable (clear c).

(** The index is exactly the inverse of "position [i] stores a sub-map
    whose id is [id]". *)
Definition index_matches_storage (c : SubmapCollection) : Prop :=
  ∀ id i, id_to_index_ c !! id = Some i ↔
          ∃ s, submaps_ c !! i = Some s ∧ getID s = id.

End Collection.

Arguments SubmapCollection : clear implicits.
Arguments empty_collection {Submap}.
Arguments clear {Submap} c.
Arguments submapIdExists {Submap} id c.

(** ** Machine integers and the priority queue *)

Definition uint8 (z : Z) : Z := z mod 2 ^ 8.
Definition uint32 (z : Z) : Z := z mod 2 ^ 32.

(** [operator<] of [std::pair<Counter, uint8_t>]. *)
Definition pair_lt (a b : Z * Z) : bool :=
  (a.1 <? b.1) || (negb (b.1 <? a.1) && (a.2 <? b.2)).

(** [std::priority_queue<std::pair<Counter, uint8_t>>] with the default
    comparator: a bag of pairs whose [top] is a greatest one.  The bag is
    kept as a list; the heap layout is not observable through
    push/top/pop. *)
Definition priority_queue : Type := list (Z * Z).

Definition pq_push (x : Z * Z) (q : priority_queue) : priority_queue := x :: q.

Fixpoint pq_top (q : priority_queue) : option (Z * Z) :=
  match q with
  | [] => None
  | x :: q' =>
      match pq_top q' with
      | Some y => Some (if pair_lt x y then y else x)
      | None => Some x
      end
  end.

Fixpoint pq_pop (q : priority_queue) : priority_queue :=
  match q with
  | [] => []
  | x :: q' =>
      match pq_top q' with
      | Some y => if pair_lt x y then x :: pq_pop q' else q'
      | None => q'
      end
  end.

(** First loop of [get_top_n_elems]: [steps] iterations starting at [i]. *)
Fixpoint push_loop (all_items : list Z) (i steps : nat) (q : priority_queue)
    : priority_queue :=
  match steps with
  | O => q
  | S steps' =>
      push_loop all_items (S i) steps' (pq_push (all_items !!! i, Z.of_nat i) q)
  end.

(** Second loop of [get_top_n_elems].  The counter is a [uint8_t] compared
    with the [int] bound [n]; the queue never holds more than 255 pairs, so
    for [n > 255] the loop reaches the empty queue before the counter
    wraps, as [n] iterations do here. *)
Fixpoint pop_loop (n : nat) (q : priority_queue) (indices counts : list Z)
    : result (list Z * list Z) :=
  match n with
  | O => Ok (indices, counts)
  | S n' =>
      match pq_top q with
      | None => Err EmptyHeapTop
      | Some top =>
          pop_loop n' (pq_pop q) (indices ++ [top.2]) (counts ++ [top.1])
      end
  end.

(** [get_top_n_elems]; returns the vectors [indices] and [counts] it
    appends to.  The bound of the first loop is the size cast to
    [uint8_t]. *)
Definition get_top_n_elems (all_items : list Z) (indices counts : list Z) (n : nat)
    : result (list Z * list Z) :=
  let count_to_idx :=
    push_loop all_items 0 (Z.to_nat (uint8 (Z.of_nat (length all_items)))) [] in
  pop_loop n count_to_idx indices counts.

(** Loop of [convert_vector_to_uint32] over the entries from position [i]
    on; the state is (saved_count, data_int, serialized_data).  The entry
    is shifted as an [int] and added into the 32-bit accumulator. *)
Fixpoint convert_loop (bits_per_entry data_packages : nat) (data : list Z) (i : nat)
    (st : nat * Z * list Z) : nat * Z * list Z :=
  match data with
  | [] => st
  | d :: rest =>
      let '(saved_count, data_int, serialized_data) := st in
      let byte_idx := (i mod data_packages)%nat in
      let data_int :=
        uint32 (data_int + Z.shiftl d (Z.of_nat (byte_idx * bits_per_entry))) in
      if decide (byte_idx = data_packages - 1)%nat then
        convert_loop bits_per_entry data_packages rest (S i)
          ((saved_count + data_packages)%nat, 0, serialized_data ++ [data_int])
      else
        convert_loop bits_per_entry data_packages rest (S i)
          (saved_count, data_int, serialized_data)
  end.

Definition convert_vector_to_uint32 (data : list Z) (serialized_data : list Z)
    (bits_per_entry : nat) : list Z :=
  let data_packages := (32 / bits_per_entry)%nat in
  let '(saved_count, data_int, serialized_data) :=
    convert_loop bits_per_entry data_packages data 0 (0%nat, 0, serialized_data) in
  if decide (saved_count < length data)%nat then serialized_data ++ [data_int]
  else serialized_data.

(** A counted loop collecting one value per iteration. *)
Fixpoint for_each_slot (body : nat → result Z) (i steps : nat) : result (list Z) :=
  match steps with
  | O => Ok []
  | S steps' =>
      x ← body i;
      xs ← for_each_slot body (S i) steps';
      Ok (x :: xs)
  end.

(** Last loop of [readVoxelFromInt32]:
    [voxel.counts.at(indices.at(i)) = counts.at(i)]. *)
Fixpoint scatter_loop (indices counts : list Z) (i steps : nat) (voxel_counts : list Z)
    : result (list Z) :=
  match steps with
  | O => Ok voxel_counts
  | S steps' =>
      idx ← at_ indices i;
      c ← at_ counts i;
      _ ← at_ voxel_counts (Z.to_nat idx);
      scatter_loop indices counts (S i) steps' (<[Z.to_nat idx := c]> voxel_counts)
  end.

(** [std::ceil(a / static_cast<float>(b))] for the small naturals used. *)
Definition ceil_div (a b : nat) : nat := ((a + b - 1) / b)%nat.

(** ** The per-voxel codec and the block stream *)

Section Codec.
(** The two macros of the voxel header.  [Counter] is the unsigned integer
    type of [COUNTER_SIZE_BITS] bits. *)
Variable PANOPTIC_MAPPING_SERIALIZE_TOP_N_COUNTS : nat.
Variable COUNTER_SIZE_BITS : nat.

(** Conversion to [Counter]. *)
Definition Counter (z : Z) : Z := z mod 2 ^ Z.of_nat COUNTER_SIZE_BITS.

(** [convertVoxelToInt32] for [ClassVoxel]: the returned flag and the
    vector [data] after the call. *)
Definition convertVoxelToInt32 (voxel : ClassVoxel) (data : list Z)
    : result (bool * list Z) :=
  let class_count := length (counts voxel) in
  if decide (class_count < 258)%nat then
    let data := data ++ [uint32 (Z.of_nat class_count)] in
    let data :=
      data ++ [Z.lor (uint32 (belongs_count voxel))
                     (uint32 (Z.shiftl (uint32 (foreign_count voxel)) 16))] in
    let data :=
      data ++ [Z.lor (uint32 (Z.b2z (is_gt voxel)))
                     (uint32 (Z.shiftl (uint32 (current_index voxel)) 16))] in
    if decide (class_count = 0)%nat then
      let voxel_has_been_initialized :=
        negb (belongs_count voxel =? 0) || negb (foreign_count voxel =? 0) in
      Ok (voxel_has_been_initialized, data)
    else
      '(indices_list, score_counts) ←
        get_top_n_elems (counts voxel) [] [] PANOPTIC_MAPPING_SERIALIZE_TOP_N_COUNTS;
      let data := convert_vector_to_uint32 indices_list data 8 in
      let data := convert_vector_to_uint32 score_counts data COUNTER_SIZE_BITS in
      Ok (true, data)
  else Err CheckFailed.

(** [mask] after [mask = ~static_cast<uint8_t>(0)] and after
    [mask = ~static_cast<Counter>(0)]: the operand of [~] is promoted to
    [int], so both assignments store all 32 bits set. *)
Definition mask : Z := 2 ^ 32 - 1.

(** [(word & (mask << shift)) >> shift] on [uint32_t]. *)
Definition extract_bits (word : Z) (shift : nat) : Z :=
  Z.shiftr (Z.land word (uint32 (Z.shiftl mask (Z.of_nat shift)))) (Z.of_nat shift).

(** [readVoxelFromInt32] for [ClassVoxel]: the returned flag, [data_idx]
    after the call, and the voxel after the call. *)
Definition readVoxelFromInt32 (data : list Z) (data_idx : nat) (voxel : ClassVoxel)
    : result (bool * nat * ClassVoxel) :=
  num_classes ← at_ data data_idx;
  let data_idx := S data_idx in
  bytes_1 ← at_ data data_idx;
  let data_idx := S data_idx in
  bytes_2 ← at_ data data_idx;
  let data_idx := S data_idx in
  let voxel_foreign_count := uint8 (Z.shiftr (Z.land bytes_1 0xFFFF0000) 16) in
  let voxel_belongs_count := uint8 (Z.land bytes_1 0x0000FFFF) in
  let voxel_current_index := uint8 (Z.shiftr (Z.land bytes_2 0xFFFF0000) 16) in
  let voxel_is_gt := negb (Z.land bytes_2 0x0000FFFF =? 0) in
  if decide (num_classes = 0) then
    Ok (negb (voxel_belongs_count =? 0) || negb (voxel_foreign_count =? 0),
        data_idx,
        {| counts := counts voxel;
           current_index := -1;
           belongs_count := voxel_belongs_count;
           foreign_count := voxel_foreign_count;
           is_gt := voxel_is_gt |})
  else
    let voxel_counts := counts voxel ++ replicate (Z.to_nat num_classes) 0 in
    indices ←
      for_each_slot
        (λ i, let byte_idx := (i mod 4)%nat in
              let vector_idx := (i / 4)%nat in
              word ← at_ data (data_idx + vector_idx)%nat;
              Ok (uint8 (extract_bits word (byte_idx * 8))))
        0 PANOPTIC_MAPPING_SERIALIZE_TOP_N_COUNTS;
    let data_idx := (data_idx + ceil_div PANOPTIC_MAPPING_SERIALIZE_TOP_N_COUNTS 4)%nat in
    let data_per_int := (32 / COUNTER_SIZE_BITS)%nat in
    read_counts ←
      for_each_slot
        (λ i, let byte_idx := (i mod data_per_int)%nat in
              let vector_idx := (i / data_per_int)%nat in
              word ← at_ data (data_idx + vector_idx)%nat;
              Ok (Counter (extract_bits word (byte_idx * COUNTER_SIZE_BITS))))
        0 PANOPTIC_MAPPING_SERIALIZE_TOP_N_COUNTS;
    let data_idx :=
      (data_idx + ceil_div PANOPTIC_MAPPING_SERIALIZE_TOP_N_COUNTS data_per_int)%nat in
    voxel_counts ← scatter_loop indices read_counts 0 (length indices) voxel_counts;
    Ok (true, data_idx,
        {| counts := voxel_counts;
           current_index := voxel_current_index;
           belongs_count := voxel_belongs_count;
           foreign_count := voxel_foreign_count;
           is_gt := voxel_is_gt |}).

(** [voxblox::Block<ClassVoxel>]: the voxel array; [num_voxels_] is its
    size. *)
Record Block : Type := mkBlock { voxels_ : list ClassVoxel }.

Definition num_voxels_ (b : Block) : nat := length (voxels_ b).

(** Loop of [serializeToIntegers] over the voxels still to be written. *)
Fixpoint serialize_loop (voxels : list ClassVoxel) (data : list Z) : result (list Z) :=
  match voxels with
  | [] => Ok data
  | voxel :: rest =>
      '(_, data) ← convertVoxelToInt32 voxel data;
      serialize_loop rest data
  end.

(** [Block<ClassVoxel>::serializeToIntegers]: the vector [*data] after the
    call. *)
Definition serializeToIntegers (b : Block) : result (list Z) :=
  if decide (32 mod COUNTER_SIZE_BITS = 0)%nat then
    serialize_loop (voxels_ b) []
  else Err CheckFailed.

(** Loop of [deserializeFromIntegers] over the voxels from [voxel_idx] on
    ([voxels] is that tail of the array): the values of [voxel_idx] and
    [data_idx] when the loop ends, and the tail after the loop. *)
Fixpoint deserialize_loop (data : list Z) (voxel_idx data_idx : nat)
    (voxels : list ClassVoxel) : result (nat * nat * list ClassVoxel) :=
  match voxels with
  | [] => Ok (voxel_idx, data_idx, [])
  | voxel :: rest =>
      if decide (data_idx < length data)%nat then
        '(_, data_idx, voxel) ← readVoxelFromInt32 data data_idx voxel;
        '(voxel_idx, data_idx, rest) ← deserialize_loop data (S voxel_idx) data_idx rest;
        Ok (voxel_idx, data_idx, voxel :: rest)
      else Ok (voxel_idx, data_idx, voxel :: rest)
  end.

(** [Block<ClassVoxel>::deserializeFromIntegers]: the block after the
    call. *)
Definition deserializeFromIntegers (b : Block) (data : list Z) : result Block :=
  if decide (32 mod COUNTER_SIZE_BITS = 0)%nat then
    let num_data_packets := length data in
    '(voxel_idx, data_idx, voxels) ← deserialize_loop data 0 0 (voxels_ b);
    if decide (voxel_idx = num_voxels_ b) then
      if decide (data_idx = num_data_packets) then Ok {| voxels_ := voxels |}
      else Err CheckFailed
    else Err CheckFailed
  else Err CheckFailed.

End Codec.

(** ** Folding a sequence of fusions into one voxel *)

Definition fuse_all {Prob : Type} (p : ClassVoxel → Prob) (gt : Prob → Prob → bool)
    (voxels : list ClassVoxel) (voxel_B : ClassVoxel) : ClassVoxel :=
  foldl (λ B A, mergeVoxelAIntoVoxelB p gt A B) voxel_B voxels.

Definition fuse_all_uncertainty {Prob Scalar : Type} (p : ClassVoxel → Prob)
    (gt : Prob → Prob → bool) (add : Scalar → Scalar → Scalar) (half : Scalar → Scalar)
    (voxels : list (ClassUncertaintyVoxel Scalar)) (voxel_B : ClassUncertaintyVoxel Scalar)
    : ClassUncertaintyVoxel Scalar :=
  foldl (λ B A, mergeUncertaintyVoxelAIntoVoxelB p gt add half A B) voxel_B voxels.

(** ** A concrete collection for the worked scenario *)

(** A sub-map reduced to its id and its grid configuration. *)
Record ExampleSubmap : Type := mkExampleSubmap {
  example_id : Z;
  example_voxels_per_side : Z
}.

(** Sub-maps 1, 2 and 3 created in that order: positions 0, 1 and 2. *)
Definition three_submaps : SubmapCollection ExampleSubmap :=
  (createSubmap example_id (mkExampleSubmap 3 16)
     (createSubmap example_id (mkExampleSubmap 2 16)
        (createSubmap example_id (mkExampleSubmap 1 16) empty_collection).2).2).2.

(** The same collection after the removal of sub-map 2. *)
Definition scenario_collection : SubmapCollection ExampleSubmap :=
  {| submaps_ := [mkExampleSubmap 1 16; mkExampleSubmap 3 16];
     id_to_index_ := <[1 := 0%nat]> (<[3 := 1%nat]> ∅) |}.

(** ** Auxiliary notions used to state the codec properties *)

(** The number written by a list of [b]-bit digits, least significant
    first. *)
Fixpoint digits_value (b : Z) (ds : list Z) : Z :=
  match ds with
  | [] => 0
  | d :: rest => d + 2 ^ b * digits_value b rest
  end.

(** [d] fits in [b] bits. *)
Definition in_range (b : Z) (d : Z) : Prop := 0 ≤ d < 2 ^ b.

(** The pairs the second loop of [get_top_n_elems] takes out of the queue,
    in order. *)
Fixpoint popped (n : nat) (q : priority_queue) : option (list (Z * Z)) :=
  match n with
  | O => Some []
  | S n' =>
      match pq_top q with
      | None => None
      | Some top => (top ::.) <$> popped n' (pq_pop q)
      end
  end.

(** The pair pushed for class [i]. *)
Definition entry (all_items : list Z) (i : nat) : Z * Z :=
  (all_items !!! i, Z.of_nat i).

(** No element is below a later one. *)
Definition descending (out : list (Z * Z)) : Prop :=
  StronglySorted (λ a b, pair_lt a b = false) out.

(** [selected] holds [n] distinct classes of [all_items], and every class
    left out is below every selected one in the order of (count, index). *)
Definition is_top_n (all_items : list Z) (n : nat) (selected : list nat) : Prop :=
  length selected = n
  ∧ NoDup selected
  ∧ (∀ i, i ∈ selected → (i < length all_items)%nat)
  ∧ (∀ i j, i ∈ selected → (j < length all_items)%nat → j ∉ selected →
       pair_lt (entry all_items j) (entry all_items i) = true).

(** [all_items] with the count of every class outside [selected] set to
    zero. *)
Definition keep_selected (selected : list nat) (all_items : list Z) : list Z :=
  imap (λ i c, if decide (i ∈ selected) then c else 0) all_items.

(** The voxels [convertVoxelToInt32] is shown to encode: counts that fit
    in a [Counter], and no class or between TOP_N and 255 classes. *)
Definition encodable (TOP_N bits : nat) (voxel : ClassVoxel) : Prop :=
  Forall (in_range (Z.of_nat bits)) (counts voxel)
  ∧ (length (counts voxel) = 0%nat ∨ (TOP_N ≤ length (counts voxel) ≤ 255)%nat).

(** The words [enc] of one voxel are read back in full wherever they sit in
    a stream. *)
Definition readable (TOP_N bits : nat) (enc : list Z) : Prop :=
  (3 ≤ length enc)%nat
  ∧ ∀ (pre suf : list Z) (target : ClassVoxel),
      ∃ (flag' : bool) (voxel' : ClassVoxel),
        readVoxelFromInt32 TOP_N bits (pre ++ enc ++ suf) (length pre) target
          = Ok (flag', (length pre + length enc)%nat, voxel').

(** Among classes with equal counts, one that is selected has every
    higher-indexed one selected at an earlier position of [indices]. *)
Definition ties_prefer_higher_index (all_items indices : list Z) : Prop :=
  ∀ (i j pos_i : nat) (c : Z),
    (i < j)%nat → all_items !! i = Some c → all_items !! j = Some c →
    indices !! pos_i = Some (Z.of_nat i) →
    ∃ pos_j, (pos_j < pos_i)%nat ∧ indices !! pos_j = Some (Z.of_nat j).

(** The voxel of the worked scenario. *)
Definition scenario_voxel : ClassVoxel :=
  {| counts := [5; 0; 9; 3]; current_index := 2;
     belongs_count := 10; foreign_count := 2; is_gt := false |}.

(** A voxel without counts, the usual target of a decode. *)
Definition empty_voxel : ClassVoxel :=
  {| counts := []; current_index := -1;
     belongs_count := 0; foreign_count := 0; is_gt := false |}.

(** A voxel without counts whose [current_index] is set. *)
Definition indexed_empty_voxel : ClassVoxel :=
  {| counts := []; current_index := 2;
     belongs_count := 1; foreign_count := 0; is_gt := false |}.

(** A voxel with 256 classes. *)
Definition wide_voxel : ClassVoxel :=
  {| counts := replicate 256 0; current_index := 0;
     belongs_count := 1; foreign_count := 0; is_gt := false |}.

(** A voxel with 257 classes, all with the same count. *)
Definition tied_voxel : ClassVoxel :=
  {| counts := replicate 257 7; current_index := 0;
     belongs_count := 1; foreign_count := 0; is_gt := false |}.

(** A voxel that already holds five counts. *)
Definition used_voxel : ClassVoxel :=
  {| counts := [0; 0; 0; 0; 0]; current_index := 0;
     belongs_count := 1; foreign_count := 0; is_gt := false |}.

(** One class declared; index slots 1, 2, 3; count slots 7, 8, 9. *)
Definition stray_index_words : list Z :=
  [1; 1; 0; 0x00030201; 0x00080007; 0x00000009].

(** ** Further operations and notions *)

(** [SubmapCollection::getSubmap]: the sub-map returned and the collection
    after the call.  [id_to_index_[id]] inserts the id with position 0 when
    it is missing; [None] stands for [submaps_[i]] past the end of the
    vector, which the standard leaves undefined. *)
Definition getSubmap {Submap : Type} (id : Z) (c : SubmapCollection Submap)
    : option (Submap * SubmapCollection Submap) :=
  let id_to_index :=
    match id_to_index_ c !! id with
    | Some _ => id_to_index_ c
    | None => <[id := 0%nat]> (id_to_index_ c)
    end in
  let index := default 0%nat (id_to_index_ c !! id) in
  match submaps_ c !! index with
  | Some submap =>
      Some (submap, {| submaps_ := submaps_ c; id_to_index_ := id_to_index |})
  | None => None
  end.

(** The number of words one voxel takes in a stream whose first word is
    [num_classes]. *)
Definition voxel_words (TOP_N bits : nat) (num_classes : Z) : nat :=
  if decide (num_classes = 0) then 3%nat
  else (3 + ceil_div TOP_N 4 + ceil_div TOP_N (32 / bits))%nat.

(** The header word holding [lo] in its low half and [hi] in its high
    half, as [convertVoxelToInt32] builds it. *)
Definition header (lo hi : Z) : Z :=
  Z.lor (uint32 lo) (uint32 (Z.shiftl (uint32 hi) 16)).





(** ** Histories of collection operations *)

(** One mutating call on a collection; [OpCreate] carries the sub-map
    that [createSubmap] constructs. *)
Inductive Operation (Submap : Type) : Type :=
| OpCreate (new_submap : Submap)
| OpAdd (submap : Submap)
| OpRemove (id : Z)
| OpClear.

Arguments OpCreate {Submap} new_submap.
Arguments OpAdd {Submap} submap.
Arguments OpRemove {Submap} id.
Arguments OpClear {Submap}.

Section History.
Context {Submap : Type}.
Variable getID : Submap → Z.

(** The collection after one call; [None] where [removeSubmap] is
    undefined. *)
Definition perform (op : Operation Submap) (c : SubmapCollection Submap)
    : option (SubmapCollection Submap) :=
  match op with
  | OpCreate new_submap => Some (createSubmap getID new_submap c).2
  | OpAdd submap => Some (addSubmap getID submap c)
  | OpRemove id => snd <$> removeSubmap id c
  | OpClear => Some (clear c)
  end.

Fixpoint perform_all (ops : list (Operation Submap)) (c : SubmapCollection Submap)
    : option (SubmapCollection Submap) :=
  match ops with
  | [] => Some c
  | op :: ops' =>
      match perform op c with
      | Some c' => perform_all ops' c'
      | None => None
      end
  end.

(** The live sub-maps by the history alone, as the caller would keep
    book without looking at the collection: a created or added sub-map is
    live under its id, a removed id is not, and nothing is after
    [clear]. *)
Definition record (op : Operation Submap) (owned : gmap Z Submap) : gmap Z Submap :=
  match op with
  | OpCreate new_submap => <[getID new_submap := new_submap]> owned
  | OpAdd submap => <[getID submap := submap]> owned
  | OpRemove id => delete id owned
  | OpClear => ∅
  end.

Fixpoint live_after (ops : list (Operation Submap)) (owned : gmap Z Submap)
    : gmap Z Submap :=
  match ops with
  | [] => owned
  | op :: ops' => live_after ops' (record op owned)
  end.

(** Every created or added sub-map carries an id that is not live at
    that point of the history. *)
Fixpoint fresh_ids (ops : list (Operation Submap)) (owned : gmap Z Submap) : Prop :=
  match ops with
  | [] => True
  | op :: ops' =>
      match op with
      | OpCreate new_submap => owned !! getID new_submap = None
      | OpAdd submap => owned !! getID submap = None
      | OpRemove _ | OpClear => True
      end
      ∧ fresh_ids ops' (record op owned)
  end.

(** The sub-map found by following the index from [id] into the
    storage. *)
Definition resolves (c : SubmapCollection Submap) (id : Z) : option Submap :=
  match id_to_index_ c !! id with
  | Some i => submaps_ c !! i
  | None => None
  end.
End History.

(** The history of the worked scenario: sub-maps 1, 2 and 3 are created,
    then sub-map 2 is removed. *)
Definition scenario_history : list (Operation ExampleSubmap) :=
  [OpCreate (mkExampleSubmap 1 16); OpCreate (mkExampleSubmap 2 16);
   OpCreate (mkExampleSubmap 3 16); OpRemove 2].

(** * Voxel fusion: properties *)

Section FusionFacts.
Context {Prob Scalar : Type}.
Variable p : ClassVoxel → Prob.
Variable gt : Prob → Prob → bool.
Variable add : Scalar → Scalar → Scalar.
Variable half : Scalar → Scalar.

Lemma merge_is_gt (A B : ClassVoxel) :
  is_gt (mergeVoxelAIntoVoxelB p gt A B) = is_gt B || is_gt A.
Proof.
  unfold mergeVoxelAIntoVoxelB.
  destruct (is_gt A) eqn:HA; simpl.
  - by rewrite orb_true_r.
  - rewrite orb_false_r. by destruct (adopts p gt A B).
Qed.

Lemma merge_uncertainty_is_gt (A B : ClassUncertaintyVoxel Scalar) :
  is_gt (base_voxel (mergeUncertaintyVoxelAIntoVoxelB p gt add half A B))
  = is_gt (base_voxel B) || is_gt (base_voxel A).
Proof.
  unfold mergeUncertaintyVoxelAIntoVoxelB.
  destruct (negb _); simpl; apply merge_is_gt.
Qed.

Lemma fuse_all_is_gt (voxels : list ClassVoxel) (B : ClassVoxel) :
  is_gt (fuse_all p gt voxels B) = is_gt B || existsb is_gt voxels.
Proof.
  revert B. induction voxels as [|A voxels IH]; intros B; simpl.
  - by rewrite orb_false_r.
  - unfold fuse_all in *. simpl. rewrite IH, merge_is_gt. by rewrite orb_assoc.
Qed.

Lemma fuse_all_uncertainty_is_gt
    (voxels : list (ClassUncertaintyVoxel Scalar)) (B : ClassUncertaintyVoxel Scalar) :
  is_gt (base_voxel (fuse_all_uncertainty p gt add half voxels B))
  = is_gt (base_voxel B) || existsb (λ A, is_gt (base_voxel A)) voxels.
Proof.
  revert B. induction voxels as [|A voxels IH]; intros B; simpl.
  - by rewrite orb_false_r.
  - unfold fuse_all_uncertainty in *. simpl.
    rewrite IH, merge_uncertainty_is_gt. by rewrite orb_assoc.
Qed.

(** When the guard of the first [if] fails, A is not ground truth, so the
    second [if] does not fire either: the merge is the identity on B. *)
Lemma merge_not_adopted (A B : ClassVoxel) :
  adopts p gt A B = false → mergeVoxelAIntoVoxelB p gt A B = B.
Proof.
  unfold mergeVoxelAIntoVoxelB, adopts. intros H.
  destruct (is_gt A); [done|]. simpl in *. by rewrite H.
Qed.

End FusionFacts.

(** C2 (fusion precedence): after [mergeVoxelAIntoVoxelB A B], the fields
    [current_index], [foreign_count], [belongs_count] and [counts] of B are
    those of A when A is ground truth or (A's belonging probability is
    strictly greater than B's and B is not ground truth), and are B's own
    previous values in every other case. *)
Theorem fusion_precedence {Prob : Type} (p : ClassVoxel → Prob)
    (gt : Prob → Prob → bool) (A B : ClassVoxel) :
  let B' := mergeVoxelAIntoVoxelB p gt A B in
  let source := if is_gt A || (gt (p A) (p B) && negb (is_gt B)) then A else B in
  current_index B' = current_index source
  ∧ foreign_count B' = foreign_count source
  ∧ belongs_count B' = belongs_count source
  ∧ counts B' = counts source.
Proof.
  unfold mergeVoxelAIntoVoxelB, adopts.
  destruct (is_gt A) eqn:HA; simpl; [done|].
  by destruct (gt (p A) (p B) && negb (is_gt B)).
Qed.

(** C6 (sticky, monotonic ground truth): for both voxel variants, after
    [mergeVoxelAIntoVoxelB A B] the flag [is_gt] of B is (old B.is_gt OR
    A.is_gt); after any sequence of fusions into B it is old B.is_gt OR the
    flag of some fused voxel, so a B that is ground truth stays ground
    truth whatever is fused into it. *)
Theorem sticky_ground_truth {Prob Scalar : Type} (p : ClassVoxel → Prob)
    (gt : Prob → Prob → bool) (add : Scalar → Scalar → Scalar) (half : Scalar → Scalar) :
  (∀ A B, is_gt (mergeVoxelAIntoVoxelB p gt A B) = is_gt B || is_gt A)
  ∧ (∀ A B, is_gt (base_voxel (mergeUncertaintyVoxelAIntoVoxelB p gt add half A B))
            = is_gt (base_voxel B) || is_gt (base_voxel A))
  ∧ (∀ voxels B, is_gt (fuse_all p gt voxels B) = is_gt B || existsb is_gt voxels)
  ∧ (∀ voxels B, is_gt (base_voxel (fuse_all_uncertainty p gt add half voxels B))
                 = is_gt (base_voxel B) || existsb (λ A, is_gt (base_voxel A)) voxels)
  ∧ (∀ voxels B, is_gt B = true → is_gt (fuse_all p gt voxels B) = true)
  ∧ (∀ voxels B, is_gt (base_voxel B) = true →
                 is_gt (base_voxel (fuse_all_uncertainty p gt add half voxels B)) = true).
Proof.
  split_and!.
  - apply merge_is_gt.
  - apply merge_uncertainty_is_gt.
  - apply fuse_all_is_gt.
  - apply fuse_all_uncertainty_is_gt.
  - intros voxels B HB. by rewrite fuse_all_is_gt, HB.
  - intros voxels B HB. by rewrite fuse_all_uncertainty_is_gt, HB.
Qed.

(** C8 (uncertainty fusion averaging): the [ClassUncertaintyVoxel] merge
    performs the [ClassVoxel] merge on the base part and then, exactly when
    B is not ground truth after that step, stores
    (old B.uncertainty_value + A.uncertainty_value) / 2; a ground-truth B
    keeps its value.  With rational scalars, fusing A (value 0) twice into
    B (value 1) yields 1/4, while fusing it once yields 1/2. *)
Theorem uncertainty_fusion_averaging :
  (∀ (Prob Scalar : Type) (p : ClassVoxel → Prob) (gt : Prob → Prob → bool)
     (add : Scalar → Scalar → Scalar) (half : Scalar → Scalar)
     (A B : ClassUncertaintyVoxel Scalar),
     let B' := mergeUncertaintyVoxelAIntoVoxelB p gt add half A B in
     base_voxel B' = mergeVoxelAIntoVoxelB p gt (base_voxel A) (base_voxel B)
     ∧ uncertainty_value B' =
         if is_gt (base_voxel B') then uncertainty_value B
         else half (add (uncertainty_value B) (uncertainty_value A)))
  ∧ (∃ A B : ClassUncertaintyVoxel Q,
       let merge := mergeUncertaintyVoxelAIntoVoxelB specBelongingProbability Q_gt Qplus Q_half in
       uncertainty_value (merge A B) == 1 # 2
       ∧ uncertainty_value (merge A (merge A B)) == 1 # 4
       ∧ ¬ uncertainty_value (merge A (merge A B)) == uncertainty_value (merge A B))%Q.
Proof.
  split.
  - intros. subst B'. unfold mergeUncertaintyVoxelAIntoVoxelB.
    destruct (is_gt (mergeVoxelAIntoVoxelB p gt (base_voxel A) (base_voxel B))) eqn:E;
      simpl; by rewrite ?E.
  - exists (mkClassUncertaintyVoxel (mkClassVoxel [] (-1) 0 0 false) 0%Q),
           (mkClassUncertaintyVoxel (mkClassVoxel [] (-1) 0 0 false) 1%Q).
    by vm_compute.
Qed.

(** * Sub-map collection: properties *)

Section CollectionFacts.
Context {Submap : Type}.
Variable getID : Submap → Z.
Implicit Types c : SubmapCollection Submap.

Lemma createSubmap_addSubmap s c : (createSubmap getID s c).2 = addSubmap getID s c.
Proof.
  unfold createSubmap, addSubmap; simpl. f_equal.
  rewrite length_app; simpl. by replace (length (submaps_ c) + 1 - 1)%nat
    with (length (submaps_ c)) by lia.
Qed.

Lemma index_matches_empty : index_matches_storage getID (@empty_collection Submap).
Proof. intros id i; simpl. rewrite lookup_empty. split; [done|]. by intros (s & ? & _). Qed.

Lemma index_matches_add s c :
  index_matches_storage getID c →
  id_to_index_ c !! getID s = None →
  index_matches_storage getID (addSubmap getID s c).
Proof.
  intros Hc Hfresh id i; simpl. split.
  - destruct (decide (getID s = id)) as [<-|Hne].
    + rewrite lookup_insert_eq. intros [= <-]. exists s.
      by rewrite list_lookup_middle.
    + rewrite lookup_insert_ne by done. intros (s' & Hs' & Hid)%Hc.
      exists s'. split; [|done]. by apply lookup_app_l_Some.
  - intros (s' & Hs' & Hid).
    destruct (decide (i < length (submaps_ c))%nat) as [Hlt|Hge].
    + rewrite lookup_app_l in Hs' by done.
      assert (id_to_index_ c !! id = Some i) as Hi by (apply Hc; eauto).
      rewrite lookup_insert_ne; [done|]. intros Heq. congruence.
    + apply lookup_lt_Some in Hs' as Hlen. rewrite length_app in Hlen; simpl in Hlen.
      assert (i = length (submaps_ c)) as -> by lia.
      rewrite list_lookup_middle in Hs' by done. injection Hs' as <-.
      subst id. by rewrite lookup_insert_eq.
Qed.

Lemma index_injective c id id' i :
  index_matches_storage getID c →
  id_to_index_ c !! id = Some i → id_to_index_ c !! id' = Some i → id = id'.
Proof.
  intros Hc (s & Hs & <-)%Hc (s' & Hs' & <-)%Hc. congruence.
Qed.

Lemma index_in_range c id i :
  index_matches_storage getID c →
  id_to_index_ c !! id = Some i → (i < length (submaps_ c))%nat.
Proof. intros Hc (s & Hs & _)%Hc. by eapply lookup_lt_Some. Qed.

Lemma removeSubmap_defined c id :
  index_matches_storage getID c → is_Some (removeSubmap id c).
Proof.
  intros Hc. unfold removeSubmap.
  destruct (id_to_index_ c !! id) as [i|] eqn:Hi; [|by eexists].
  rewrite decide_True by by eapply index_in_range. by eexists.
Qed.

Lemma index_matches_remove c id r c' :
  index_matches_storage getID c →
  removeSubmap id c = Some (r, c') →
  index_matches_storage getID c'.
Proof.
  intros Hc. unfold removeSubmap.
  destruct (id_to_index_ c !! id) as [p|] eqn:Hp; [|by intros [= <- <-]].
  case_decide as Hlt; [|done]. intros [= <- <-]. intros id' i; simpl.
  rewrite lookup_fmap. split.
  - destruct (decide (id = id')) as [<-|Hne]; [by rewrite lookup_delete_eq|].
    rewrite lookup_delete_ne by done.
    destruct (id_to_index_ c !! id') as [j|] eqn:Hj; [|done]. simpl. intros [= <-].
    assert (j ≠ p) by (intros ->; by eapply Hne, index_injective).
    apply Hc in Hj as (s & Hs & Hid). exists s. split; [|done].
    unfold shift_down. case_decide.
    + rewrite list_lookup_delete_ge by lia. by replace (S (j - 1)) with j by lia.
    + by rewrite list_lookup_delete_lt by lia.
  - intros (s & Hs & Hid).
    rewrite list_lookup_delete in Hs. case_decide as Hip.
    + assert (id_to_index_ c !! id' = Some i) as Hi by (apply Hc; eauto).
      rewrite lookup_delete_ne by (intros ->; rewrite Hp in Hi; injection Hi; lia).
      rewrite Hi; simpl.
      unfold shift_down. by rewrite decide_False by lia.
    + assert (id_to_index_ c !! id' = Some (S i)) as Hi by (apply Hc; eauto).
      rewrite lookup_delete_ne by (intros ->; rewrite Hp in Hi; injection Hi; lia).
      rewrite Hi; simpl. unfold shift_down. rewrite decide_True by lia.
      f_equal. lia.
Qed.

Lemma reachable_index_matches c :
  reachable getID c → index_matches_storage getID c.
Proof.
  induction 1 as [|c s _ IH Hfresh|c s _ IH Hfresh|c id r c' _ IH Hrem|c _ IH].
  - apply index_matches_empty.
  - rewrite createSubmap_addSubmap. by apply index_matches_add.
  - by apply index_matches_add.
  - by eapply index_matches_remove.
  - apply index_matches_empty.
Qed.

Lemma lookup_delete_shift_down {A} (l : list A) (p j : nat) :
  j ≠ p → delete p l !! shift_down p j = l !! j.
Proof.
  intros Hne. unfold shift_down. case_decide.
  - rewrite list_lookup_delete_ge by lia. by replace (S (j - 1)) with j by lia.
  - by rewrite list_lookup_delete_lt by lia.
Qed.

Lemma resolves_add s c id :
  index_matches_storage getID c →
  id_to_index_ c !! getID s = None →
  resolves (addSubmap getID s c) id
  = if decide (id = getID s) then Some s else resolves c id.
Proof.
  intros Hc Hfresh. unfold resolves, addSubmap; simpl. case_decide as Hid.
  - subst id. rewrite lookup_insert_eq. by rewrite list_lookup_middle.
  - rewrite lookup_insert_ne by done.
    destruct (id_to_index_ c !! id) as [i|] eqn:Hi; [|done].
    apply lookup_app_l. by eapply (index_in_range c).
Qed.

Lemma resolves_remove c id r c' id' :
  index_matches_storage getID c →
  removeSubmap id c = Some (r, c') →
  resolves c' id' = if decide (id' = id) then None else resolves c id'.
Proof.
  intros Hc. unfold removeSubmap, resolves.
  destruct (id_to_index_ c !! id) as [p|] eqn:Hp.
  - case_decide as Hlt; [|done]. intros [= <- <-]. simpl. rewrite lookup_fmap.
    case_decide as Hid.
    + subst id'. by rewrite lookup_delete_eq.
    + rewrite lookup_delete_ne by done.
      destruct (id_to_index_ c !! id') as [j|] eqn:Hj; [|done]. simpl.
      apply lookup_delete_shift_down. intros ->.
      by eapply Hid, (index_injective c id' id p).
  - intros [= <- <-]. case_decide as Hid; [|done]. subst id'. by rewrite Hp.
Qed.

Lemma unowned_unknown c (owned : gmap Z Submap) id :
  index_matches_storage getID c →
  (∀ id, resolves c id = owned !! id) →
  owned !! id = None → id_to_index_ c !! id = None.
Proof.
  intros Hc Hown Hid. specialize (Hown id). rewrite Hid in Hown.
  unfold resolves in Hown.
  destruct (id_to_index_ c !! id) as [i|] eqn:Hi; [|done].
  apply Hc in Hi as (s & Hs & _). congruence.
Qed.

Lemma resolves_record_add s c (owned : gmap Z Submap) :
  index_matches_storage getID c →
  (∀ id, resolves c id = owned !! id) →
  owned !! getID s = None →
  index_matches_storage getID (addSubmap getID s c)
  ∧ ∀ id, resolves (addSubmap getID s c) id = <[getID s := s]> owned !! id.
Proof.
  intros Hc Hown Hnew. pose proof (unowned_unknown c owned _ Hc Hown Hnew) as Hfresh.
  split; [by apply index_matches_add|].
  intros id. rewrite resolves_add by done. case_decide as Hid.
  - subst id. by rewrite lookup_insert_eq.
  - by rewrite lookup_insert_ne.
Qed.

(** Along a history with fresh ids no call is undefined, the index keeps
    matching the storage, and every id resolves to what the history says
    is live under it. *)
Lemma perform_all_tracks (ops : list (Operation Submap)) :
  ∀ c (owned : gmap Z Submap),
  index_matches_storage getID c →
  (∀ id, resolves c id = owned !! id) →
  fresh_ids getID ops owned →
  ∃ c', perform_all getID ops c = Some c'
        ∧ index_matches_storage getID c'
        ∧ ∀ id, resolves c' id = live_after getID ops owned !! id.
Proof.
  induction ops as [|op ops IH]; intros c owned Hc Hown Hfresh.
  - exists c. by split.
  - destruct Hfresh as [Hop Hfresh].
    destruct op as [s|s|id|]; cbn [perform_all perform live_after record] in *.
    + rewrite createSubmap_addSubmap.
      destruct (resolves_record_add s c owned Hc Hown Hop). by apply IH.
    + destruct (resolves_record_add s c owned Hc Hown Hop). by apply IH.
    + destruct (removeSubmap_defined c id Hc) as [[r c1] Hrem]. rewrite Hrem.
      cbn [fmap option_fmap option_map snd].
      apply IH; [by eapply index_matches_remove| |done].
      intros id'. rewrite (resolves_remove c id r c1) by done. case_decide as Hid.
      * subst id'. by rewrite lookup_delete_eq.
      * by rewrite lookup_delete_ne.
    + apply IH; [apply index_matches_empty| |done].
      intros id. unfold resolves. simpl. by rewrite !lookup_empty.
Qed.

Lemma fresh_ids_take (ops : list (Operation Submap)) (k : nat) :
  ∀ owned : gmap Z Submap,
  fresh_ids getID ops owned → fresh_ids getID (take k ops) owned.
Proof.
  revert k. induction ops as [|op ops IH]; intros [|k] owned; simpl; try done.
  intros [Hop Hfresh]. split; [done|]. by apply IH.
Qed.

End CollectionFacts.

(** C4 (collection density invariant): take any history of createSubmap
    / addSubmap / removeSubmap / clear calls on the empty collection in
    which a created or added sub-map carries an id that is not live at
    that point.  After each of its calls (after its first k calls, for
    every k) no call has been undefined and, with n the number of stored
    sub-maps and "live" read off the calls made so far alone (created or
    added and not removed or cleared since): every live id is in the index
    at a position below n, and that position holds the very sub-map that
    was created or added under the id; an id that is not live is not in
    the index; every position below n is recorded for some id; no two ids
    share a position; and [submapIdExists] is true exactly for the live
    ids. *)
Theorem collection_density {Submap : Type} (getID : Submap → Z)
    (ops : list (Operation Submap)) (k : nat) :
  fresh_ids getID ops ∅ →
  ∃ c : SubmapCollection Submap,
    perform_all getID (take k ops) empty_collection = Some c
    ∧ (∀ id s, live_after getID (take k ops) ∅ !! id = Some s →
         getID s = id
         ∧ ∃ i, id_to_index_ c !! id = Some i
                ∧ (i < length (submaps_ c))%nat
                ∧ submaps_ c !! i = Some s)
    ∧ (∀ id, live_after getID (take k ops) ∅ !! id = None →
             id_to_index_ c !! id = None)
    ∧ (∀ i, (i < length (submaps_ c))%nat → ∃ id, id_to_index_ c !! id = Some i)
    ∧ (∀ id id' i, id_to_index_ c !! id = Some i →
                   id_to_index_ c !! id' = Some i → id = id')
    ∧ (∀ id, submapIdExists id c = true
             ↔ is_Some (live_after getID (take k ops) ∅ !! id)).
Proof.
  intros Hfresh%(fresh_ids_take getID ops k).
  destruct (perform_all_tracks getID (take k ops) empty_collection ∅)
    as (c & Hrun & Hc & Hown); [apply index_matches_empty|done|done|].
  exists c. split; [done|]. split_and!.
  - intros id s Hlive. rewrite <-Hown in Hlive. unfold resolves in Hlive.
    destruct (id_to_index_ c !! id) as [i|] eqn:Hi; [|done].
    pose proof Hi as (s' & Hs' & Hid)%Hc. split; [congruence|].
    exists i. split; [done|]. split; [by eapply lookup_lt_Some|done].
  - intros id Hnone. by eapply (unowned_unknown getID c).
  - intros i [s Hs]%lookup_lt_is_Some. exists (getID s). apply Hc. eauto.
  - intros id id' i. by apply (index_injective getID).
  - intros id. unfold submapIdExists. rewrite bool_decide_eq_true, <-Hown.
    unfold resolves. split.
    + intros [i Hi]. rewrite Hi. apply Hc in Hi as (s & Hs & _). eauto.
    + intros [s Hs]. destruct (id_to_index_ c !! id); [eauto|done].
Qed.

Lemma scenario_reachable : reachable example_id scenario_collection.
Proof.
  apply (reachable_remove example_id three_submaps 2 true); [|by vm_compute].
  unfold three_submaps.
  do 3 (apply (reachable_create example_id); [|by vm_compute]).
  apply reachable_empty.
Defined.

Lemma collection_density_witness :
  ∃ c : SubmapCollection ExampleSubmap,
    perform_all example_id (take 4 scenario_history) empty_collection = Some c
    ∧ (∀ id, live_after example_id (take 4 scenario_history) ∅ !! id = None →
             id_to_index_ c !! id = None)
    ∧ (∀ id, submapIdExists id c = true
             ↔ is_Some (live_after example_id (take 4 scenario_history) ∅ !! id)).
Proof.
  destruct (collection_density example_id scenario_history 4)
    as (c & Hrun & _ & Hdead & _ & _ & Hexists).
  - vm_compute. tauto.
  - exists c. split; [exact Hrun|]. split; [exact Hdead|exact Hexists].
Defined.

(** C7 (removeSubmap): for an id that is not in the index, removeSubmap
    returns false and leaves the collection as it is; for an id recorded at
    a valid storage position p it returns true, erases the sub-map at p,
    drops the id from the index, lowers by one the position of every other
    id recorded above p and leaves every other recorded position alone. *)
Theorem removeSubmap_spec {Submap : Type} (c : SubmapCollection Submap) (id : Z) :
  (id_to_index_ c !! id = None → removeSubmap id c = Some (false, c))
  ∧ (∀ p, id_to_index_ c !! id = Some p → (p < length (submaps_ c))%nat →
       ∃ c', removeSubmap id c = Some (true, c')
             ∧ submaps_ c' = delete p (submaps_ c)
             ∧ id_to_index_ c' !! id = None
             ∧ (∀ id' j, id' ≠ id → id_to_index_ c !! id' = Some j →
                  id_to_index_ c' !! id' = Some (if decide (p < j)%nat then (j - 1)%nat else j))
             ∧ (∀ id', id_to_index_ c !! id' = None → id_to_index_ c' !! id' = None)).
Proof.
  unfold removeSubmap. split.
  - by intros ->.
  - intros p -> Hp. rewrite decide_True by done. eexists. split; [done|]. simpl.
    split_and!.
    + done.
    + by rewrite lookup_fmap, lookup_delete_eq.
    + intros id' j Hne Hj. by rewrite lookup_fmap, lookup_delete_ne, Hj.
    + intros id' Hnone. rewrite lookup_fmap.
      destruct (decide (id = id')) as [->|]; [by rewrite lookup_delete_eq|].
      by rewrite lookup_delete_ne, Hnone.
Qed.

Lemma removeSubmap_spec_witness :
  removeSubmap 7 three_submaps = Some (false, three_submaps)
  ∧ ∃ c', removeSubmap 2 three_submaps = Some (true, c')
          ∧ submaps_ c' = [mkExampleSubmap 1 16; mkExampleSubmap 3 16]
          ∧ id_to_index_ c' !! 3 = Some 1%nat.
Proof.
  split.
  - apply (proj1 (removeSubmap_spec three_submaps 7)). reflexivity.
  - destruct (proj2 (removeSubmap_spec three_submaps 2) 1%nat) as (c' & H1 & H2 & _ & H4 & _).
    + reflexivity.
    + vm_compute. lia.
    + exists c'. split; [exact H1|]. split; [exact H2|].
      apply (H4 3 2%nat); [discriminate | reflexivity].
Defined.

(** * Bit packing: properties *)

Lemma testbit_above (w n i : Z) : 0 ≤ w < 2 ^ n → 0 ≤ n ≤ i → Z.testbit w i = false.
Proof.
  intros Hw Hi. rewrite <-(Z.mod_small w (2 ^ n)) by done.
  by apply Z.mod_pow2_bits_high.
Qed.

Lemma extract_bits_div (w : Z) (s : nat) :
  0 ≤ w < 2 ^ 32 → extract_bits w s = w / 2 ^ Z.of_nat s.
Proof.
  intros Hw. unfold extract_bits, uint32, mask.
  rewrite <-(Z.shiftr_div_pow2 w) by lia.
  apply Z.bits_inj'; intros i Hi.
  rewrite !Z.shiftr_spec, Z.land_spec by done.
  rewrite Z.testbit_mod_pow2, Z.shiftl_spec by lia.
  change (2 ^ 32 - 1) with (Z.ones 32).
  rewrite Z.testbit_ones_nonneg by lia.
  destruct (Z.ltb_spec (i + Z.of_nat s) 32) as [Hlt|Hge].
  - replace (i + Z.of_nat s - Z.of_nat s <? 32) with true
      by (symmetry; apply Z.ltb_lt; lia).
    by rewrite andb_true_r.
  - rewrite (testbit_above w 32) by lia. done.
Qed.

Lemma mod_div_mod (x c b : Z) :
  0 ≤ c → 0 ≤ b → c + b ≤ 32 →
  ((x mod 2 ^ 32) / 2 ^ c) mod 2 ^ b = (x / 2 ^ c) mod 2 ^ b.
Proof.
  intros Hc Hb Hcb. apply Z.bits_inj'; intros i Hi.
  rewrite !Z.testbit_mod_pow2, !Z.div_pow2_bits, Z.testbit_mod_pow2 by lia.
  destruct (Z.ltb_spec i b); [|done]. simpl.
  by replace (i + c <? 32) with true by (symmetry; apply Z.ltb_lt; lia).
Qed.

Lemma digits_value_app (b : Z) (ds : list Z) (d : Z) :
  0 ≤ b →
  digits_value b (ds ++ [d]) = digits_value b ds + 2 ^ (b * Z.of_nat (length ds)) * d.
Proof.
  intros Hb. induction ds as [|d0 ds IH]; simpl digits_value; simpl length.
  - rewrite !Z.mul_0_r, Z.pow_0_r. lia.
  - rewrite IH. replace (b * Z.of_nat (S (length ds))) with (b + b * Z.of_nat (length ds)) by lia.
    rewrite Z.pow_add_r by lia. ring.
Qed.

Lemma digits_value_bound (b : Z) (ds : list Z) :
  0 ≤ b → Forall (in_range b) ds →
  0 ≤ digits_value b ds < 2 ^ (b * Z.of_nat (length ds)).
Proof.
  intros Hb. induction 1 as [|d ds [Hd0 Hd1] _ IH]; simpl digits_value; simpl length.
  - rewrite Z.mul_0_r, Z.pow_0_r. lia.
  - replace (b * Z.of_nat (S (length ds))) with (b + b * Z.of_nat (length ds)) by lia.
    rewrite Z.pow_add_r by lia.
    assert (0 < 2 ^ b) by (apply Z.pow_pos_nonneg; lia). nia.
Qed.

Lemma digits_value_lookup (b : Z) (ds : list Z) (k : nat) (d : Z) :
  0 ≤ b → Forall (in_range b) ds → ds !! k = Some d →
  (digits_value b ds / 2 ^ (b * Z.of_nat k)) mod 2 ^ b = d.
Proof.
  intros Hb Hds. revert k. induction Hds as [|d0 ds [Hd0 Hd1] _ IH]; intros k Hk; [done|].
  assert (0 < 2 ^ b) by (apply Z.pow_pos_nonneg; lia).
  destruct k as [|k]; simpl in Hk; simpl digits_value.
  - injection Hk as <-. replace (b * Z.of_nat 0) with 0 by lia.
    rewrite Z.pow_0_r, Z.div_1_r.
    rewrite (Z.mul_comm (2 ^ b)), Z.mod_add by lia. by apply Z.mod_small.
  - replace (b * Z.of_nat (S k)) with (b + b * Z.of_nat k) by lia.
    rewrite Z.pow_add_r by lia.
    rewrite <-Z.div_div by (try apply Z.pow_pos_nonneg; lia).
    rewrite (Z.mul_comm (2 ^ b)), Z.div_add by lia.
    rewrite (Z.div_small d0) by lia. rewrite Z.add_0_l. by apply IH.
Qed.

Section Packing.
Variables bits dp : nat.
Hypothesis Hbits : (0 < bits)%nat.
Hypothesis Hdp : (dp * bits = 32)%nat.

Lemma pow2_pos (n : Z) : 0 ≤ n → 0 < 2 ^ n.
Proof. intros. apply Z.pow_pos_nonneg; lia. Qed.

Lemma accumulate_entry (data_int d : Z) (r : nat) :
  (r < dp)%nat →
  0 ≤ data_int < 2 ^ (Z.of_nat bits * Z.of_nat r) →
  in_range (Z.of_nat bits) d →
  uint32 (data_int + Z.shiftl d (Z.of_nat (r * bits)))
    = data_int + 2 ^ (Z.of_nat bits * Z.of_nat r) * d
  ∧ 0 ≤ data_int + 2 ^ (Z.of_nat bits * Z.of_nat r) * d
      < 2 ^ (Z.of_nat bits * Z.of_nat (S r)).
Proof.
  intros Hr Hacc [Hd0 Hd1].
  rewrite Z.shiftl_mul_pow2 by lia.
  replace (Z.of_nat (r * bits)) with (Z.of_nat bits * Z.of_nat r) by lia.
  set (P := 2 ^ (Z.of_nat bits * Z.of_nat r)) in *.
  assert (0 < P) by (apply pow2_pos; lia).
  assert (2 ^ (Z.of_nat bits * Z.of_nat (S r)) = 2 ^ Z.of_nat bits * P) as HS.
  { unfold P. rewrite <-Z.pow_add_r by lia. f_equal. lia. }
  assert (2 ^ (Z.of_nat bits * Z.of_nat (S r)) ≤ 2 ^ 32) as Hle.
  { apply Z.pow_le_mono_r; nia. }
  assert (0 ≤ data_int + P * d < 2 ^ (Z.of_nat bits * Z.of_nat (S r))) as Hb.
  { rewrite HS. nia. }
  split; [|done]. unfold uint32. rewrite (Z.mul_comm d). apply Z.mod_small. lia.
Qed.

Lemma convert_loop_spec (rest : list Z) :
  Forall (in_range (Z.of_nat bits)) rest →
  ∀ (pre : list Z) (q r : nat) (data_int : Z) (out0 ws : list Z),
  length pre = (q * dp + r)%nat → (r < dp)%nat →
  length ws = q →
  0 ≤ data_int < 2 ^ (Z.of_nat bits * Z.of_nat r) →
  Forall (in_range 32) ws →
  digits_value 32 ws + 2 ^ (32 * Z.of_nat q) * data_int = digits_value (Z.of_nat bits) pre →
  ∃ (q' r' : nat) (data_int' : Z) (ws' : list Z),
    convert_loop bits dp rest (length pre) ((q * dp)%nat, data_int, out0 ++ ws)
      = ((q' * dp)%nat, data_int', out0 ++ ws')
    ∧ length (pre ++ rest) = (q' * dp + r')%nat ∧ (r' < dp)%nat
    ∧ length ws' = q'
    ∧ 0 ≤ data_int' < 2 ^ (Z.of_nat bits * Z.of_nat r')
    ∧ Forall (in_range 32) ws'
    ∧ digits_value 32 ws' + 2 ^ (32 * Z.of_nat q') * data_int'
        = digits_value (Z.of_nat bits) (pre ++ rest).
Proof.
  induction 1 as [|d rest Hd Hrest IH]; intros pre q r data_int out0 ws Hlen Hr Hws Hacc Hrange Hval.
  - exists q, r, data_int, ws. rewrite app_nil_r. by simpl.
  - simpl convert_loop.
    replace (length pre mod dp)%nat with r
      by (apply Nat.mod_unique with q; lia).
    destruct (accumulate_entry data_int d r Hr Hacc Hd) as [-> Hacc'].
    set (data_int' := data_int + 2 ^ (Z.of_nat bits * Z.of_nat r) * d) in *.
    assert (digits_value 32 ws + 2 ^ (32 * Z.of_nat q) * data_int'
            = digits_value (Z.of_nat bits) (pre ++ [d])) as Hval'.
    { rewrite digits_value_app by lia. rewrite <-Hval. unfold data_int'.
      replace (Z.of_nat bits * Z.of_nat (length pre))
        with (32 * Z.of_nat q + Z.of_nat bits * Z.of_nat r) by nia.
      rewrite Z.pow_add_r by lia. ring. }
    replace (S (length pre)) with (length (pre ++ [d]))
      by (rewrite length_app; simpl; lia).
    replace (pre ++ d :: rest) with ((pre ++ [d]) ++ rest) by by rewrite <-app_assoc.
    assert (Z.of_nat bits * Z.of_nat (S r) ≤ 32) by nia.
    case_decide as Hlast.
    + replace (q * dp + dp)%nat with (S q * dp)%nat by lia.
      rewrite <-app_assoc.
      apply (IH (pre ++ [d]) (S q) 0%nat 0 out0 (ws ++ [data_int'])).
      * rewrite length_app; simpl. lia.
      * lia.
      * rewrite length_app; simpl. lia.
      * rewrite Z.mul_0_r. simpl. lia.
      * apply Forall_app. split; [done|]. apply Forall_singleton.
        split; [lia|]. eapply Z.lt_le_trans; [apply Hacc'|].
        apply Z.pow_le_mono_r; lia.
      * rewrite Z.mul_0_r, Z.add_0_r, digits_value_app by lia.
        rewrite <-Hval', Hws. done.
    + apply (IH (pre ++ [d]) q (S r) data_int' out0 ws).
      * rewrite length_app; simpl. lia.
      * lia.
      * done.
      * done.
      * done.
      * done.
Qed.

Lemma ceil_div_split (q r : nat) :
  (r < dp)%nat → ceil_div (q * dp + r) dp = (if decide (r = 0)%nat then q else S q).
Proof.
  intros Hr. unfold ceil_div. case_decide as H0.
  - subst r. symmetry. apply Nat.div_unique with (dp - 1)%nat; lia.
  - symmetry. apply Nat.div_unique with (r - 1)%nat; lia.
Qed.

Lemma convert_vector_spec (data out0 : list Z) :
  (32 / bits = dp)%nat →
  Forall (in_range (Z.of_nat bits)) data →
  ∃ ws, convert_vector_to_uint32 data out0 bits = out0 ++ ws
        ∧ length ws = ceil_div (length data) dp
        ∧ Forall (in_range 32) ws
        ∧ digits_value 32 ws = digits_value (Z.of_nat bits) data.
Proof.
  intros Hdiv Hdata. unfold convert_vector_to_uint32. rewrite Hdiv.
  destruct (convert_loop_spec data Hdata [] 0 0 0 out0 []) as
    (q & r & data_int & ws & Heq & Hlen & Hr & Hws & Hacc & Hrange & Hval);
    try done; try (simpl; lia).
  simpl in Heq, Hlen, Hval. rewrite app_nil_r in Heq. rewrite Heq.
  rewrite Hlen, ceil_div_split by done.
  destruct (decide (r = 0)%nat) as [->|Hr0].
  - rewrite decide_False by lia. exists ws. split_and!; try done.
    rewrite Z.mul_0_r in Hacc. simpl in Hacc. rewrite <-Hval.
    replace data_int with 0 by lia. lia.
  - rewrite decide_True by lia. exists (ws ++ [data_int]).
    rewrite app_assoc. split_and!; try done.
    + rewrite length_app; simpl. lia.
    + apply Forall_app. split; [done|]. apply Forall_singleton.
      split; [lia|]. eapply Z.lt_le_trans; [apply Hacc|].
      apply Z.pow_le_mono_r; nia.
    + rewrite digits_value_app by lia. rewrite Hws. done.
Qed.

Lemma packed_digit (data ws : list Z) (k : nat) (d : Z) :
  Forall (in_range (Z.of_nat bits)) data →
  Forall (in_range 32) ws →
  length ws = ceil_div (length data) dp →
  digits_value 32 ws = digits_value (Z.of_nat bits) data →
  data !! k = Some d →
  ∃ w, ws !! (k / dp)%nat = Some w
       ∧ in_range 32 w
       ∧ (w / 2 ^ Z.of_nat ((k mod dp) * bits)) mod 2 ^ Z.of_nat bits = d.
Proof.
  intros Hdata Hws Hlen Hval Hk.
  assert (dp ≠ 0)%nat as Hdp0 by lia.
  pose proof (Nat.div_mod_eq k dp) as Hkq.
  pose proof (Nat.mod_upper_bound k dp Hdp0) as Hkr.
  set (q := (k / dp)%nat) in *. set (r := (k mod dp)%nat) in *.
  assert (q < length ws)%nat as Hq.
  { rewrite Hlen. apply lookup_lt_Some in Hk.
    pose proof (Nat.div_mod_eq (length data) dp) as Hnq.
    pose proof (Nat.mod_upper_bound (length data) dp Hdp0) as Hnr.
    rewrite Hnq at 1. rewrite (Nat.mul_comm dp), ceil_div_split by done.
    assert (q ≤ length data / dp)%nat by (apply Nat.Div0.div_le_mono; lia).
    case_decide; [|lia].
    destruct (decide (q = length data / dp)%nat); [|lia]. nia. }
  destruct (lookup_lt_is_Some_2 ws q Hq) as [w Hw]. exists w.
  split; [done|]. split; [by eapply Forall_lookup_1|].
  rewrite <-(digits_value_lookup 32 ws q w) by (done || lia).
  rewrite Hval.
  rewrite mod_div_mod by nia.
  rewrite Z.div_div;
    [|pose proof (pow2_pos (32 * Z.of_nat q)); lia|apply pow2_pos; lia].
  rewrite <-Z.pow_add_r by lia.
  replace (32 * Z.of_nat q + Z.of_nat (r * bits)) with (Z.of_nat bits * Z.of_nat k) by nia.
  by apply digits_value_lookup; [lia|..].
Qed.

End Packing.

(** * Top-N selection: properties *)

Ltac pair_order :=
  intros; unfold pair_lt in *;
  repeat match goal with p : (Z * Z)%type |- _ => destruct p end;
  simpl in *;
  rewrite ?orb_true_iff, ?orb_false_iff, ?andb_true_iff, ?andb_false_iff,
    ?negb_true_iff, ?negb_false_iff, ?Z.ltb_lt, ?Z.ltb_ge in *;
  first [lia | f_equal; lia].

Lemma pair_lt_irrefl a : pair_lt a a = false.
Proof. pair_order. Qed.

Lemma pair_lt_trans a b c : pair_lt a b = true → pair_lt b c = true → pair_lt a c = true.
Proof. pair_order. Qed.

Lemma pair_lt_total a b : pair_lt a b = false → pair_lt b a = false → a = b.
Proof. pair_order. Qed.

Lemma pair_lt_asym a b : pair_lt a b = true → pair_lt b a = false.
Proof. pair_order. Qed.

Lemma pair_le_trans a b c : pair_lt b a = false → pair_lt c b = false → pair_lt c a = false.
Proof. pair_order. Qed.

Lemma pq_top_None q : pq_top q = None → q = [].
Proof. destruct q as [|x q]; [done|]. simpl. by destruct (pq_top q). Qed.

Lemma pq_top_elem q m : pq_top q = Some m → m ∈ q.
Proof.
  revert m. induction q as [|x q IH]; intros m; simpl; [done|].
  destruct (pq_top q) as [y|] eqn:Hy.
  - intros [= <-]. destruct (pair_lt x y); [right; by apply IH | left].
  - intros [= <-]. left.
Qed.

Lemma pq_top_max q m x : pq_top q = Some m → x ∈ q → pair_lt m x = false.
Proof.
  revert m. induction q as [|z q IH]; intros m; simpl; [done|].
  destruct (pq_top q) as [y|] eqn:Hy.
  - intros [= <-] [->|Hx]%elem_of_cons.
    + destruct (pair_lt z y) eqn:E; [by apply pair_lt_asym | apply pair_lt_irrefl].
    + specialize (IH y eq_refl Hx).
      destruct (pair_lt z y) eqn:E; [done|]. by eapply pair_le_trans.
  - apply pq_top_None in Hy as ->.
    intros [= <-] [->|Hx]%elem_of_cons; [apply pair_lt_irrefl | by apply elem_of_nil in Hx].
Qed.

Lemma pq_pop_perm q m : pq_top q = Some m → q ≡ₚ m :: pq_pop q.
Proof.
  revert m. induction q as [|x q IH]; intros m; simpl; [done|].
  destruct (pq_top q) as [y|] eqn:Hy.
  - intros [= <-]. destruct (pair_lt x y).
    + rewrite (IH y eq_refl) at 1. apply Permutation_swap.
    + done.
  - by intros [= <-].
Qed.

Lemma popped_spec (n : nat) : ∀ q : priority_queue,
  (n ≤ length q)%nat →
  ∃ out rest, popped n q = Some out
    ∧ q ≡ₚ out ++ rest
    ∧ length out = n
    ∧ descending out
    ∧ (∀ x y, x ∈ out → y ∈ rest → pair_lt x y = false).
Proof.
  induction n as [|n IH]; intros q Hn.
  - exists [], q. split_and!; try done. constructor. intros x y Hx. by apply elem_of_nil in Hx.
  - simpl. destruct (pq_top q) as [m|] eqn:Hm; [|apply pq_top_None in Hm as ->; simpl in Hn; lia].
    pose proof (pq_pop_perm q m Hm) as Hperm.
    assert (length q = S (length (pq_pop q))) as Hlen by by rewrite Hperm at 1.
    destruct (IH (pq_pop q)) as (out & rest & -> & Hp & Hout & Hsorted & Hrest); [lia|].
    exists (m :: out), rest. simpl. split_and!; try done.
    + by rewrite Hperm at 1; rewrite Hp.
    + by rewrite Hout.
    + constructor; [done|]. apply Forall_forall. intros x Hx.
      eapply pq_top_max; [done|]. rewrite Hperm, Hp. right. apply elem_of_app. by left.
    + intros x y [->|Hx]%elem_of_cons Hy; [|by eapply Hrest].
      eapply pq_top_max; [done|]. rewrite Hperm, Hp. right. apply elem_of_app. by right.
Qed.

Lemma popped_short (n : nat) : ∀ q : priority_queue,
  (length q < n)%nat → popped n q = None.
Proof.
  induction n as [|n IH]; intros q Hn; [lia|]. simpl.
  destruct (pq_top q) as [m|] eqn:Hm; [|done].
  pose proof (pq_pop_perm q m Hm) as Hperm.
  assert (length q = S (length (pq_pop q))) as Hlen by by rewrite Hperm at 1.
  rewrite IH by lia. done.
Qed.

Lemma pop_loop_popped (n : nat) : ∀ (q : priority_queue) (indices counts : list Z),
  pop_loop n q indices counts =
    match popped n q with
    | Some out => Ok (indices ++ out.*2, counts ++ out.*1)
    | None => Err EmptyHeapTop
    end.
Proof.
  induction n as [|n IH]; intros q indices counts; simpl.
  - by rewrite !app_nil_r.
  - destruct (pq_top q) as [m|]; [|done]. rewrite IH.
    destruct (popped n (pq_pop q)) as [out|]; simpl; [|done].
    by rewrite <-!app_assoc.
Qed.

Lemma push_loop_spec (all_items : list Z) (steps : nat) : ∀ (i : nat) (q : priority_queue),
  push_loop all_items i steps q = reverse (entry all_items <$> seq i steps) ++ q.
Proof.
  induction steps as [|steps IH]; intros i q; simpl; [done|].
  rewrite IH, reverse_cons, <-app_assoc. done.
Qed.

Lemma entry_inj (all_items : list Z) : Inj (=) (=) (entry all_items).
Proof. intros i j [= _ H]. lia. Qed.

Lemma descending_lookup (out : list (Z * Z)) (a b : nat) (x y : Z * Z) :
  descending out → out !! a = Some x → out !! b = Some y → (a < b)%nat →
  pair_lt x y = false.
Proof.
  intros Hout. revert a b. induction Hout as [|z out _ IH Hz]; intros a b Ha Hb Hab; [done|].
  destruct b as [|b]; [lia|]. destruct a as [|a]; simpl in *.
  - injection Ha as ->. rewrite Forall_forall in Hz. apply Hz.
    by eapply list_elem_of_lookup_2.
  - eapply IH; [done..|lia].
Qed.

Lemma uint8_small (n : nat) : (n ≤ 255)%nat → Z.to_nat (uint8 (Z.of_nat n)) = n.
Proof. intros Hn. unfold uint8. rewrite Z.mod_small by lia. lia. Qed.

Lemma get_top_n_elems_spec (all_items indices counts : list Z) (n : nat) :
  (n ≤ length all_items ≤ 255)%nat →
  ∃ selected : list nat,
    get_top_n_elems all_items indices counts n
      = Ok (indices ++ (Z.of_nat <$> selected),
            counts ++ ((all_items !!!.) <$> selected))
    ∧ is_top_n all_items n selected
    ∧ descending (entry all_items <$> selected).
Proof.
  intros [Hn Hlen]. unfold get_top_n_elems.
  rewrite uint8_small, push_loop_spec, app_nil_r, pop_loop_popped by done.
  set (es := entry all_items <$> seq 0 (length all_items)).
  assert (NoDup es) as Hnodup.
  { apply NoDup_fmap_2; [apply entry_inj | apply NoDup_seq]. }
  destruct (popped_spec n (reverse es)) as (out & rest & -> & Hperm & Hout & Hdesc & Hrest).
  { unfold es. by rewrite length_reverse, length_fmap, length_seq. }
  rewrite reverse_Permutation in Hperm.
  assert (∀ x, x ∈ out ++ rest ↔ ∃ i, (i < length all_items)%nat ∧ x = entry all_items i)
    as Hmem.
  { intros x. rewrite <-Hperm. unfold es. rewrite list_elem_of_fmap.
    split; intros (i & Hx & Hi); exists i.
    - apply elem_of_seq in Hi. split; [lia|done].
    - split; [done|]. apply elem_of_seq. lia. }
  rewrite Hperm in Hnodup. apply NoDup_app in Hnodup as (Hnd_out & Hdisj & _).
  exists (Z.to_nat <$> out.*2).
  assert (entry all_items <$> (Z.to_nat <$> out.*2) = out) as Hentries.
  { rewrite <-!list_fmap_compose. rewrite <-(list_fmap_id out) at 2.
    apply list_fmap_ext. intros k x Hx. simpl.
    destruct (proj1 (Hmem x)) as (i & _ & ->).
    - apply elem_of_app. left. by eapply list_elem_of_lookup_2.
    - unfold entry. simpl. by rewrite Nat2Z.id. }
  split_and!.
  - f_equal. f_equal.
    + f_equal. rewrite <-!list_fmap_compose. apply list_fmap_ext. intros k x Hx. simpl.
      destruct (proj1 (Hmem x)) as (i & _ & ->).
      * apply elem_of_app. left. by eapply list_elem_of_lookup_2.
      * simpl. lia.
    + f_equal. rewrite <-!list_fmap_compose. apply list_fmap_ext. intros k x Hx. simpl.
      destruct (proj1 (Hmem x)) as (i & _ & ->).
      * apply elem_of_app. left. by eapply list_elem_of_lookup_2.
      * simpl. by rewrite Nat2Z.id.
  - unfold is_top_n. split_and!.
    + by rewrite !length_fmap.
    + eapply (NoDup_fmap_1 (entry all_items)). by rewrite Hentries.
    + intros i Hi. apply (list_elem_of_fmap_2 (entry all_items)) in Hi.
      rewrite Hentries in Hi.
      destruct (proj1 (Hmem (entry all_items i))) as (i' & Hi' & Heq).
      { apply elem_of_app. by left. }
      by apply entry_inj in Heq as ->.
    + intros i j Hi Hj Hnot.
      apply (list_elem_of_fmap_2 (entry all_items)) in Hi. rewrite Hentries in Hi.
      assert (entry all_items j ∉ out) as Hjout.
      { rewrite <-Hentries. intros (j' & Heq & Hj')%list_elem_of_fmap.
        by apply entry_inj in Heq as <-. }
      assert (entry all_items j ∈ rest) as Hjrest.
      { assert (entry all_items j ∈ out ++ rest) as Hin by (apply Hmem; eauto).
        apply elem_of_app in Hin as [?|?]; done. }
      specialize (Hrest _ _ Hi Hjrest).
      destruct (pair_lt (entry all_items j) (entry all_items i)) eqn:E; [done|].
      exfalso. apply Hjout. by rewrite (pair_lt_total _ _ E Hrest).
  - by rewrite Hentries.
Qed.

(** * The voxel codec: properties *)

Lemma at_app_r {A} (pre l : list A) (k : nat) :
  at_ (pre ++ l) (length pre + k) = at_ l k.
Proof. unfold at_. by rewrite lookup_app_r, Nat.add_comm, Nat.add_sub by lia. Qed.

Lemma at_Some {A} (l : list A) (k : nat) (x : A) : l !! k = Some x → at_ l k = Ok x.
Proof. unfold at_. by intros ->. Qed.

Lemma for_each_slot_spec (body : nat → result Z) (l : list Z) : ∀ i : nat,
  (∀ k d, l !! k = Some d → body (i + k)%nat = Ok d) →
  for_each_slot body i (length l) = Ok l.
Proof.
  induction l as [|d l IH]; intros i Hbody; simpl; [done|].
  rewrite <-(Nat.add_0_r i) at 1. rewrite (Hbody 0%nat d) by done. simpl.
  rewrite IH; [done|]. intros k d' Hk.
  replace (S i + k)%nat with (i + S k)%nat by lia. by apply Hbody.
Qed.

Lemma scatter_selected (f : nat → Z) (sel_rest : list nat) :
  ∀ (sel_done : list nat) (base : list Z),
  (∀ i, i ∈ sel_rest → (i < length base)%nat) →
  scatter_loop (Z.of_nat <$> (sel_done ++ sel_rest)) (f <$> (sel_done ++ sel_rest))
    (length sel_done) (length sel_rest) base
  = Ok (foldl (λ acc i, <[i := f i]> acc) base sel_rest).
Proof.
  induction sel_rest as [|i sel_rest IH]; intros sel_done base Hin; simpl; [done|].
  rewrite !fmap_app, !fmap_cons.
  assert (∀ (g : nat → Z),
    at_ ((g <$> sel_done) ++ g i :: (g <$> sel_rest)) (length sel_done) = Ok (g i)) as Hat.
  { intros g. apply at_Some. rewrite <-(length_fmap g sel_done).
    by apply list_lookup_middle. }
  rewrite (Hat Z.of_nat), (Hat f). simpl. rewrite Nat2Z.id.
  destruct (lookup_lt_is_Some_2 base i) as [c Hc]; [apply Hin; left|].
  rewrite (at_Some _ _ c) by done. simpl.
  specialize (IH (sel_done ++ [i]) (<[i := f i]> base)).
  rewrite <-!app_assoc, length_app in IH. simpl in IH.
  rewrite !fmap_app, !fmap_cons in IH.
  replace (length sel_done + 1)%nat with (S (length sel_done)) in IH by lia.
  apply IH. intros j Hj. rewrite length_insert. apply Hin. by right.
Qed.

Lemma scatter_result_lookup (f : nat → Z) (sel : list nat) : ∀ (base : list Z) (j : nat),
  foldl (λ acc i, <[i := f i]> acc) base sel !! j
  = if decide (j ∈ sel) then (λ _, f j) <$> base !! j else base !! j.
Proof.
  induction sel as [|i sel IH]; intros base j; cbn [foldl].
  - rewrite decide_False; [done|]. apply not_elem_of_nil.
  - rewrite IH. destruct (decide (i = j)) as [->|Hne].
    + rewrite (decide_True (P := j ∈ j :: sel)) by left.
      destruct (decide (j < length base)%nat).
      * rewrite list_lookup_insert_eq by done.
        destruct (lookup_lt_is_Some_2 base j) as [c ->]; [done|].
        by case_decide.
      * rewrite list_insert_ge by lia. rewrite (lookup_ge_None_2 base j) by lia.
        by case_decide.
    + rewrite list_lookup_insert_ne by done.
      destruct (decide (j ∈ sel)).
      * by rewrite decide_True by by right.
      * rewrite decide_False; [done|]. intros [?|?]%elem_of_cons; done.
Qed.

Lemma scatter_result_length (f : nat → Z) (sel : list nat) : ∀ base : list Z,
  length (foldl (λ acc i, <[i := f i]> acc) base sel) = length base.
Proof. induction sel as [|i sel IH]; intros base; simpl; [done|]. by rewrite IH, length_insert. Qed.

(** A header word: a 16-bit value in the low half, [hi << 16] in the high half. *)
Lemma header_word (lo hi : Z) :
  0 ≤ lo < 2 ^ 16 →
  let w := Z.lor (uint32 lo) (uint32 (Z.shiftl (uint32 hi) 16)) in
  in_range 32 w
  ∧ Z.land w 0x0000FFFF = lo
  ∧ Z.shiftr (Z.land w 0xFFFF0000) 16 = hi mod 2 ^ 16.
Proof.
  intros Hlo w.
  assert (w = lo + 2 ^ 16 * (hi mod 2 ^ 16)) as Hw.
  { unfold w, uint32. rewrite Z.shiftl_mul_pow2 by lia.
    rewrite (Z.mod_small lo) by lia.
    replace ((hi mod 2 ^ 32 * 2 ^ 16) mod 2 ^ 32) with ((hi mod 2 ^ 16) * 2 ^ 16).
    2:{ rewrite <-(Z.mul_mod_distr_r hi (2 ^ 16) (2 ^ 16)) by lia.
        change (2 ^ 16 * 2 ^ 16) with (2 ^ 32).
        by rewrite Z.mul_mod_idemp_l by lia. }
    set (h := hi mod 2 ^ 16 * 2 ^ 16).
    assert (Z.land lo h = 0) as Hland.
    { apply Z.bits_inj'; intros i Hi.
      rewrite Z.land_spec, Z.bits_0.
      destruct (Z.lt_ge_cases i 16).
      - unfold h. by rewrite Z.mul_pow2_bits_low, andb_false_r by lia.
      - by rewrite (testbit_above lo 16) by lia. }
    pose proof (Z.add_lor_land lo h) as Hsum. rewrite Hland in Hsum.
    unfold h in *. lia. }
  assert (in_range 32 w) as Hrange
    by (unfold in_range; Z.div_mod_to_equations; lia).
  split; [done|]. split.
  - change 0x0000FFFF with (Z.ones 16). rewrite Z.land_ones by lia.
    Z.div_mod_to_equations; lia.
  - transitivity (w / 2 ^ 16); [|Z.div_mod_to_equations; lia].
    rewrite <-Z.shiftr_div_pow2 by lia.
    apply Z.bits_inj'; intros i Hi.
    rewrite !Z.shiftr_spec, Z.land_spec by lia.
    change 0xFFFF0000 with (Z.shiftl (Z.ones 16) 16).
    rewrite Z.shiftl_spec, Z.testbit_ones_nonneg by lia.
    destruct (Z.ltb_spec (i + 16 - 16) 16); [by rewrite andb_true_r|].
    by rewrite (testbit_above w 32) by (done || lia).
Qed.

Lemma read_header {A} (pre rest : list A) (a b c : A) :
  at_ (pre ++ a :: b :: c :: rest) (length pre) = Ok a
  ∧ at_ (pre ++ a :: b :: c :: rest) (S (length pre)) = Ok b
  ∧ at_ (pre ++ a :: b :: c :: rest) (S (S (length pre))) = Ok c.
Proof.
  replace (S (S (length pre))) with (length pre + 2)%nat by lia.
  replace (S (length pre)) with (length pre + 1)%nat by lia.
  rewrite <-(Nat.add_0_r (length pre)) at 1.
  by rewrite !at_app_r.
Qed.

Lemma bind_Ok {A B} (a : A) (f : A → result B) : Ok a ≫= f = f a.
Proof. done. Qed.

Section CodecFacts.
Variables TOP_N bits : nat.
Hypothesis Hbits : (0 < bits)%nat.
Hypothesis Hdiv : (32 mod bits = 0)%nat.

Lemma per_int_bits : (32 / bits * bits = 32)%nat.
Proof. pose proof (Nat.div_mod_eq 32 bits). lia. Qed.

(** Reading the slots of a packed vector back. *)
Lemma read_packed (b : nat) (trunc : Z → Z) (l ws pre suf : list Z) (off : nat) :
  (0 < b)%nat → (32 / b * b = 32)%nat →
  (∀ z, trunc z = z mod 2 ^ Z.of_nat b) →
  Forall (in_range (Z.of_nat b)) l →
  Forall (in_range 32) ws →
  length ws = ceil_div (length l) (32 / b) →
  digits_value 32 ws = digits_value (Z.of_nat b) l →
  off = length pre →
  for_each_slot
    (λ i, word ← at_ (pre ++ ws ++ suf) (off + i / (32 / b))%nat;
          Ok (trunc (extract_bits word (i mod (32 / b) * b))))
    0 (length l) = Ok l.
Proof.
  intros Hb Hper Htrunc Hl Hws Hlen Hval ->.
  apply for_each_slot_spec. intros k d Hk. simpl.
  destruct (packed_digit b (32 / b)%nat Hb Hper l ws k d) as (w & Hw & Hwr & Hd); try done.
  rewrite at_app_r, (at_Some _ _ w) by by apply lookup_app_l_Some.
  simpl. by rewrite Htrunc, extract_bits_div, Hd.
Qed.

Lemma codec_round_trip (voxel : ClassVoxel) (data0 : list Z) :
  Forall (in_range (Z.of_nat bits)) (counts voxel) →
  (length (counts voxel) = 0%nat ∨ (TOP_N ≤ length (counts voxel) ≤ 255)%nat) →
  ∃ (flag : bool) (enc : list Z) (selected : list nat),
    convertVoxelToInt32 TOP_N bits voxel data0 = Ok (flag, data0 ++ enc)
    ∧ (3 ≤ length enc)%nat
    ∧ (counts voxel ≠ [] → is_top_n (counts voxel) TOP_N selected)
    ∧ ∀ (pre suf : list Z) (target : ClassVoxel),
        ∃ (flag' : bool) (voxel' : ClassVoxel),
          readVoxelFromInt32 TOP_N bits (pre ++ enc ++ suf) (length pre) target
            = Ok (flag', (length pre + length enc)%nat, voxel')
          ∧ is_gt voxel' = is_gt voxel
          ∧ current_index voxel'
              = (if decide (counts voxel = []) then -1 else current_index voxel mod 2 ^ 8)
          ∧ (0 ≤ belongs_count voxel < 2 ^ 16 →
               belongs_count voxel' = belongs_count voxel mod 2 ^ 8
               ∧ foreign_count voxel' = foreign_count voxel mod 2 ^ 8)
          ∧ (counts target = [] → counts voxel' = keep_selected selected (counts voxel)).
Proof.
  intros Hrange Hsize. unfold convertVoxelToInt32.
  set (C := length (counts voxel)) in *.
  set (w1 := Z.lor (uint32 (belongs_count voxel))
                   (uint32 (Z.shiftl (uint32 (foreign_count voxel)) 16))).
  set (w2 := Z.lor (uint32 (Z.b2z (is_gt voxel)))
                   (uint32 (Z.shiftl (uint32 (current_index voxel)) 16))).
  rewrite decide_True by lia. rewrite <-!app_assoc. simpl app.
  assert (uint32 (Z.of_nat C) = Z.of_nat C) as HC by (apply Z.mod_small; lia).
  rewrite HC.
  destruct (header_word (Z.b2z (is_gt voxel)) (current_index voxel)) as (_ & Hgt & Hci);
    [by destruct (is_gt voxel)|]. fold w2 in Hgt, Hci.
  assert (negb (Z.land w2 0x0000FFFF =? 0) = is_gt voxel) as Hgt'
    by (rewrite Hgt; by destruct (is_gt voxel)).
  assert (uint8 (Z.shiftr (Z.land w2 0xFFFF0000) 16) = current_index voxel mod 2 ^ 8) as Hci'.
  { rewrite Hci. unfold uint8. Z.div_mod_to_equations; lia. }
  assert (0 ≤ belongs_count voxel < 2 ^ 16 →
          uint8 (Z.land w1 0x0000FFFF) = belongs_count voxel mod 2 ^ 8
          ∧ uint8 (Z.shiftr (Z.land w1 0xFFFF0000) 16) = foreign_count voxel mod 2 ^ 8) as Hbf.
  { intros Hb. unfold w1. destruct (header_word (belongs_count voxel) (foreign_count voxel) Hb)
      as (_ & -> & ->). unfold uint8. split; [done|]. Z.div_mod_to_equations; lia. }
  case_decide as HC0.
  - (* no classes *)
    assert (counts voxel = []) as Hnil by by apply nil_length_inv.
    eexists _, [Z.of_nat C; w1; w2], []. split; [done|]. split; [simpl; lia|].
    split; [done|]. intros pre suf target.
    unfold readVoxelFromInt32. cbn [app].
    destruct (read_header pre suf (Z.of_nat C) w1 w2) as (-> & -> & ->).
    rewrite !bind_Ok. cbv zeta.
    rewrite decide_True by lia.
    eexists _, _. split; [do 3 f_equal; simpl; lia|]. cbn [is_gt current_index belongs_count foreign_count counts].
    rewrite decide_True by done. split_and!; try done.
    intros ->. by rewrite Hnil.
  - (* at least TOP_N classes *)
    assert (counts voxel ≠ []) as Hnonnil
      by (intros Hnil; apply HC0; unfold C; by rewrite Hnil).
    destruct (get_top_n_elems_spec (counts voxel) [] [] TOP_N) as (selected & -> & Htop & _);
      [unfold C in *; lia|].
    simpl. destruct Htop as (Hsel_len & Hsel_nodup & Hsel_lt & Hsel_top).
    set (indices_list := Z.of_nat <$> selected).
    set (score_counts := (counts voxel !!!.) <$> selected).
    assert (Forall (in_range (Z.of_nat 8)) indices_list) as Hidx_range.
    { apply Forall_fmap, Forall_forall. intros i Hi%Hsel_lt. unfold in_range; simpl.
      fold C in Hi. lia. }
    assert (Forall (in_range (Z.of_nat bits)) score_counts) as Hcnt_range.
    { apply Forall_fmap, Forall_forall. intros i Hi%Hsel_lt. simpl.
      destruct (lookup_lt_is_Some_2 (counts voxel) i Hi) as [c Hc].
      rewrite (list_lookup_total_correct _ _ _ Hc).
      by eapply Forall_lookup_1. }
    destruct (convert_vector_spec 8 4 ltac:(lia) ltac:(lia) indices_list
                (data0 ++ [Z.of_nat C; w1; w2])) as (iw & -> & Hiw_len & Hiw_range & Hiw_val);
      [done..|].
    destruct (convert_vector_spec bits (32 / bits)%nat Hbits per_int_bits score_counts
                ((data0 ++ [Z.of_nat C; w1; w2]) ++ iw))
      as (cw & -> & Hcw_len & Hcw_range & Hcw_val); [done..|].
    assert (length indices_list = TOP_N) as Hidx_len by by unfold indices_list; rewrite length_fmap.
    assert (length score_counts = TOP_N) as Hcnt_len by by unfold score_counts; rewrite length_fmap.
    rewrite Hidx_len in Hiw_len. rewrite Hcnt_len in Hcw_len.
    eexists true, ([Z.of_nat C; w1; w2] ++ iw ++ cw), selected.
    split; [by rewrite <-!app_assoc|].
    split; [rewrite !length_app; simpl; lia|].
    split; [done|]. intros pre suf target.
    unfold readVoxelFromInt32. cbn [app]. rewrite <-(app_assoc iw cw suf).
    destruct (read_header pre (iw ++ cw ++ suf) (Z.of_nat C) w1 w2) as (-> & -> & ->).
    rewrite !bind_Ok. cbv zeta.
    rewrite decide_False by lia.
    (* the index slots *)
    pose proof (read_packed 8 uint8 indices_list iw
                  (pre ++ [Z.of_nat C; w1; w2]) (cw ++ suf) (S (S (S (length pre)))))
      as Hread_idx.
    rewrite Hidx_len in Hread_idx. rewrite <-!app_assoc in Hread_idx. simpl app in Hread_idx.
    change (32 / 8)%nat with 4%nat in Hread_idx.
    rewrite Hread_idx; [|first [done | rewrite ?length_app; simpl; lia]..].
    clear Hread_idx.
    rewrite bind_Ok.
    (* the count slots *)
    pose proof (read_packed bits (Counter bits) score_counts cw
                  (pre ++ [Z.of_nat C; w1; w2] ++ iw) suf
                  (S (S (S (length pre))) + ceil_div TOP_N 4)%nat Hbits per_int_bits)
      as Hread_cnt.
    rewrite Hcnt_len in Hread_cnt. rewrite <-!app_assoc in Hread_cnt. simpl app in Hread_cnt.
    rewrite Hread_cnt;
      [|first [done | rewrite length_app; cbn [length]; rewrite Hiw_len; lia]..].
    clear Hread_cnt.
    rewrite bind_Ok.
    (* the scatter *)
    rewrite Nat2Z.id. rewrite Hidx_len, <-Hsel_len.
    pose proof (scatter_selected (counts voxel !!!.) selected []
                  (counts target ++ replicate C 0)) as Hscatter.
    cbn [app length] in Hscatter. unfold indices_list, score_counts.
    rewrite Hscatter
      by (intros i Hi%Hsel_lt; rewrite length_app, length_replicate; unfold C; lia).
    clear Hscatter. rewrite bind_Ok, Hsel_len.
    assert (S (S (S (length pre))) + ceil_div TOP_N 4 + ceil_div TOP_N (32 / bits)
            = length pre + length ([Z.of_nat C; w1; w2] ++ iw ++ cw))%nat as ->
      by (rewrite !length_app; cbn [length]; lia).
    eexists _, _. split; [reflexivity|].
    cbn [is_gt current_index belongs_count foreign_count counts].
    rewrite decide_False by done. split_and!; try done.
    intros ->. cbn [app]. apply list_eq. intros j.
    rewrite scatter_result_lookup. unfold keep_selected. rewrite list_lookup_imap.
    destruct (decide (j < C)%nat) as [Hj|Hj].
    + destruct (lookup_lt_is_Some_2 (counts voxel) j Hj) as [c Hc]. rewrite Hc. simpl.
      rewrite lookup_replicate_2 by done. simpl.
      rewrite (list_lookup_total_correct _ _ _ Hc). by case_decide.
    + rewrite (lookup_ge_None_2 (counts voxel) j) by (fold C; lia).
      rewrite (lookup_ge_None_2 (replicate C 0) j) by (rewrite length_replicate; lia).
      simpl. by case_decide.
Qed.

End CodecFacts.

(** * Block streams: properties *)

Section StreamFacts.
Variables TOP_N bits : nat.
Hypothesis Hbits : (0 < bits)%nat.
Hypothesis Hdiv : (32 mod bits = 0)%nat.

Lemma serialize_loop_spec (voxels : list ClassVoxel) : ∀ data0 : list Z,
  Forall (encodable TOP_N bits) voxels →
  ∃ encs : list (list Z),
    serialize_loop TOP_N bits voxels data0 = Ok (data0 ++ concat encs)
    ∧ length encs = length voxels
    ∧ Forall (readable TOP_N bits) encs.
Proof.
  induction voxels as [|voxel voxels IH]; intros data0 Hvoxels.
  - exists []. simpl. by rewrite app_nil_r.
  - apply Forall_cons in Hvoxels as [[Hrange Hsize] Hvoxels]. simpl.
    destruct (codec_round_trip TOP_N bits Hbits Hdiv voxel data0 Hrange Hsize)
      as (flag & enc & selected & -> & Hlen & _ & Hread).
    rewrite bind_Ok.
    destruct (IH (data0 ++ enc) Hvoxels) as (encs & -> & Hencs & Hreadable).
    exists (enc :: encs). simpl. rewrite <-app_assoc. split_and!; [done|by rewrite Hencs|].
    constructor; [|done]. split; [done|]. intros pre suf target.
    destruct (Hread pre suf target) as (flag' & voxel' & -> & _). eauto.
Qed.

Lemma deserialize_loop_spec (encs : list (list Z)) :
  ∀ (targets : list ClassVoxel) (pre : list Z) (voxel_idx : nat),
  Forall (readable TOP_N bits) encs →
  length targets = length encs →
  ∃ voxels : list ClassVoxel,
    deserialize_loop TOP_N bits (pre ++ concat encs) voxel_idx (length pre) targets
      = Ok ((voxel_idx + length encs)%nat, length (pre ++ concat encs), voxels)
    ∧ length voxels = length targets.
Proof.
  induction encs as [|enc encs IH]; intros targets pre voxel_idx Hread Hlen.
  - destruct targets; [|done]. exists []. simpl. rewrite app_nil_r.
    by rewrite Nat.add_0_r.
  - destruct targets as [|target targets]; [done|].
    apply Forall_cons in Hread as [[Henc Hread1] Hread].
    simpl. rewrite decide_True by (rewrite !length_app; lia).
    destruct (Hread1 pre (concat encs) target) as (flag' & voxel' & ->).
    rewrite bind_Ok. cbv beta iota.
    specialize (IH targets (pre ++ enc) (S voxel_idx) Hread).
    rewrite length_app, <-app_assoc in IH.
    destruct IH as (voxels & -> & Hvoxels); [simpl in Hlen; lia|].
    rewrite bind_Ok. cbv beta iota. exists (voxel' :: voxels).
    split; [do 3 f_equal; lia|]. simpl. by rewrite Hvoxels.
Qed.

(** Stream consistency for the blocks the encoder handles: the words
    written for a block are read back in full into any block of the same
    size, and both final checks pass. *)
Lemma stream_round_trip (b b0 : Block) :
  Forall (encodable TOP_N bits) (voxels_ b) →
  num_voxels_ b0 = num_voxels_ b →
  ∃ (data : list Z) (voxels : list ClassVoxel),
    serializeToIntegers TOP_N bits b = Ok data
    ∧ deserialize_loop TOP_N bits data 0 0 (voxels_ b0)
        = Ok (num_voxels_ b, length data, voxels)
    ∧ length voxels = num_voxels_ b
    ∧ deserializeFromIntegers TOP_N bits b0 data = Ok {| voxels_ := voxels |}.
Proof.
  intros Hb Hsize. unfold serializeToIntegers, deserializeFromIntegers, num_voxels_ in *.
  rewrite !decide_True by done.
  destruct (serialize_loop_spec (voxels_ b) [] Hb) as (encs & -> & Hencs & Hread).
  destruct (deserialize_loop_spec encs (voxels_ b0) [] 0 Hread) as (voxels & Hloop & Hvoxels);
    [lia|].
  simpl in Hloop |- *. rewrite Hencs in Hloop.
  exists (concat encs), voxels. rewrite Hloop, bind_Ok. cbv beta iota.
  rewrite !decide_True by lia. split_and!; try done. lia.
Qed.

(** The two final checks: when the loop ends with voxels left unread or
    with words left unconsumed, the call aborts. *)
Lemma deserialize_short_read_fatal (b : Block) (data : list Z)
    (voxel_idx data_idx : nat) (voxels : list ClassVoxel) :
  deserialize_loop TOP_N bits data 0 0 (voxels_ b) = Ok (voxel_idx, data_idx, voxels) →
  (voxel_idx < num_voxels_ b)%nat ∨ (data_idx < length data)%nat →
  deserializeFromIntegers TOP_N bits b data = Err CheckFailed.
Proof.
  intros Hloop Hshort. unfold deserializeFromIntegers.
  case_decide; [|done]. rewrite Hloop, bind_Ok. cbv beta iota.
  repeat case_decide; try done. lia.
Qed.

End StreamFacts.

(** * The claims about the codec *)

(** C1, as stated, fails: a voxel without classes whose [current_index] is
    2 (counters within 16 bits) is encoded to three words, and decoding
    them stores the sentinel -1 in [current_index], not 2. *)
Lemma round_trip_counterexample :
  0 ≤ belongs_count indexed_empty_voxel < 2 ^ 16
  ∧ 0 ≤ foreign_count indexed_empty_voxel < 2 ^ 16
  ∧ length (counts indexed_empty_voxel) = 0%nat
  ∧ convertVoxelToInt32 3 16 indexed_empty_voxel [] = Ok (true, [0; 1; 0x00020000])
  ∧ readVoxelFromInt32 3 16 [0; 1; 0x00020000] 0 empty_voxel
      = Ok (true, 3%nat,
            {| counts := []; current_index := -1;
               belongs_count := 1; foreign_count := 0; is_gt := false |})
  ∧ current_index indexed_empty_voxel = 2.
Proof. by vm_compute. Qed.

(** C1 (voxel codec round trip), amended: for a voxel whose belongs_count
    and foreign_count are below 2^8, whose class counts are below
    2^COUNTER_SIZE_BITS, whose class count C is 0 or between TOP_N and 255,
    and whose current_index is in [0, 2^8) when C > 0, the encoder succeeds
    and decoding its words into a voxel with empty counts consumes exactly
    those words and yields the same belongs_count, foreign_count and is_gt,
    the same current_index when C > 0 and -1 when C = 0, and counts of
    length C in which the TOP_N greatest classes by (count, index) keep
    their count and every other class is zero. *)
Theorem voxel_round_trip (TOP_N bits : nat) (voxel target : ClassVoxel) :
  (0 < bits)%nat → (32 mod bits = 0)%nat →
  0 ≤ belongs_count voxel < 2 ^ 8 →
  0 ≤ foreign_count voxel < 2 ^ 8 →
  Forall (λ c, 0 ≤ c < 2 ^ Z.of_nat bits) (counts voxel) →
  (length (counts voxel) = 0%nat ∨ (TOP_N ≤ length (counts voxel) ≤ 255)%nat) →
  (counts voxel ≠ [] → 0 ≤ current_index voxel < 2 ^ 8) →
  counts target = [] →
  ∃ (flag flag' : bool) (data : list Z) (voxel' : ClassVoxel) (selected : list nat),
    convertVoxelToInt32 TOP_N bits voxel [] = Ok (flag, data)
    ∧ readVoxelFromInt32 TOP_N bits data 0 target = Ok (flag', length data, voxel')
    ∧ belongs_count voxel' = belongs_count voxel
    ∧ foreign_count voxel' = foreign_count voxel
    ∧ is_gt voxel' = is_gt voxel
    ∧ current_index voxel' = (if decide (counts voxel = []) then -1 else current_index voxel)
    ∧ (counts voxel ≠ [] → is_top_n (counts voxel) TOP_N selected)
    ∧ counts voxel' = keep_selected selected (counts voxel).
Proof.
  intros Hbits Hdiv Hb Hf Hrange Hsize Hci Htarget.
  destruct (codec_round_trip TOP_N bits Hbits Hdiv voxel [] Hrange Hsize)
    as (flag & enc & selected & Henc & _ & Htop & Hread).
  destruct (Hread [] [] target) as (flag' & voxel' & Hdec & Hgt & Hidx & Hbf & Hcounts).
  rewrite app_nil_l, app_nil_r in Hdec. simpl in Hdec.
  destruct Hbf as [Hb' Hf']; [lia|].
  exists flag, flag', enc, voxel', selected. split_and!; try done.
  - rewrite Hb'. apply Z.mod_small. lia.
  - rewrite Hf'. apply Z.mod_small. lia.
  - rewrite Hidx. case_decide; [done|]. apply Z.mod_small. auto.
  - by apply Hcounts.
Qed.

Lemma voxel_round_trip_witness :
  ∃ (flag flag' : bool) (data : list Z) (voxel' : ClassVoxel) (selected : list nat),
    convertVoxelToInt32 3 16 scenario_voxel [] = Ok (flag, data)
    ∧ readVoxelFromInt32 3 16 data 0 empty_voxel = Ok (flag', length data, voxel')
    ∧ belongs_count voxel' = 10
    ∧ foreign_count voxel' = 2
    ∧ is_gt voxel' = false
    ∧ current_index voxel' = 2
    ∧ (counts scenario_voxel ≠ [] → is_top_n (counts scenario_voxel) 3 selected)
    ∧ counts voxel' = keep_selected selected (counts scenario_voxel).
Proof.
  apply (voxel_round_trip 3 16 scenario_voxel empty_voxel).
  - lia.
  - reflexivity.
  - simpl. lia.
  - simpl. lia.
  - simpl. repeat constructor; lia.
  - right. simpl. lia.
  - intros _. simpl. lia.
  - reflexivity.
Defined.

(** The worked scenario of the specification, evaluated. *)
Example scenario_round_trip :
  convertVoxelToInt32 3 16 scenario_voxel []
    = Ok (true, [4; 0x0002000A; 0x00020000; 0x00030002; 0x00050009; 3])
  ∧ readVoxelFromInt32 3 16 [4; 0x0002000A; 0x00020000; 0x00030002; 0x00050009; 3]
      0 empty_voxel
    = Ok (true, 6%nat, scenario_voxel).
Proof. by vm_compute. Qed.

(** The decoder narrows belongs_count and foreign_count to 8 bits: 256
    belongs votes come back as 0. *)
Example belongs_count_narrowed :
  convertVoxelToInt32 3 16
    {| counts := []; current_index := -1;
       belongs_count := 256; foreign_count := 300; is_gt := false |} []
    = Ok (true, [0; 0x012C0100; 0xFFFF0000])
  ∧ readVoxelFromInt32 3 16 [0; 0x012C0100; 0xFFFF0000] 0 empty_voxel
    = Ok (true, 3%nat,
          {| counts := []; current_index := -1;
             belongs_count := 0; foreign_count := 44; is_gt := false |}).
Proof. by vm_compute. Qed.

(** C3: a block whose only voxel has 256 classes, all counts 0, passes
    [CHECK_LT(class_count, 258)], and then the encoder takes the top of an
    empty queue: no word sequence is produced for the block. *)
Theorem wide_voxel_block_not_serialized :
  Forall (λ c, 0 ≤ c < 2 ^ 16) (counts wide_voxel)
  ∧ (3 ≤ length (counts wide_voxel) < 258)%nat
  ∧ convertVoxelToInt32 3 16 wide_voxel [] = Err EmptyHeapTop
  ∧ serializeToIntegers 3 16 {| voxels_ := [wide_voxel] |} = Err EmptyHeapTop.
Proof.
  split; [|split; [vm_compute; lia|by vm_compute]].
  apply Forall_forall. intros c Hc%elem_of_replicate. lia.
Qed.

(** Where the class count fits the 8-bit index (at least n and at most
    255 entries), ties are broken towards the higher index:
    [get_top_n_elems] returns n indices, and whenever two classes have
    equal counts and the lower index is selected, the higher index is
    selected too and stands earlier in the output. *)
Lemma tie_break_higher_index (all_items : list Z) (n : nat) :
  (n ≤ length all_items ≤ 255)%nat →
  ∃ indices counts : list Z,
    get_top_n_elems all_items [] [] n = Ok (indices, counts)
    ∧ length indices = n
    ∧ ties_prefer_higher_index all_items indices.
Proof.
  intros Hn.
  destruct (get_top_n_elems_spec all_items [] [] n Hn)
    as (selected & -> & (Hlen & Hnodup & Hlt & Htop) & Hdesc).
  eexists _, _. split; [done|]. simpl. split; [by rewrite length_fmap|].
  intros i j pos_i c Hij Hi Hj Hpos.
  rewrite list_lookup_fmap in Hpos.
  destruct (selected !! pos_i) as [i'|] eqn:Hsel; [|done].
  injection Hpos as Hi'. apply Nat2Z.inj in Hi' as ->.
  assert (pair_lt (entry all_items i) (entry all_items j) = true) as Hbelow.
  { unfold entry, pair_lt. simpl.
    rewrite (list_lookup_total_correct _ _ _ Hi), (list_lookup_total_correct _ _ _ Hj).
    rewrite Z.ltb_irrefl. simpl. apply Z.ltb_lt. lia. }
  assert (i ∈ selected) as Hin by by eapply list_elem_of_lookup_2.
  destruct (decide (j ∈ selected)) as [Hjin|Hjout].
  - apply list_elem_of_lookup in Hjin as [pos_j Hpos_j]. exists pos_j.
    split; [|by rewrite list_lookup_fmap, Hpos_j].
    destruct (decide (pos_j < pos_i)%nat); [done|]. exfalso.
    assert (pos_i ≠ pos_j) by (intros ->; rewrite Hsel in Hpos_j; injection Hpos_j; lia).
    assert (pair_lt (entry all_items i) (entry all_items j) = false); [|congruence].
    eapply (descending_lookup _ pos_i pos_j); [done| | |lia].
    + by rewrite list_lookup_fmap, Hsel.
    + by rewrite list_lookup_fmap, Hpos_j.
  - exfalso. apply lookup_lt_Some in Hj.
    pose proof (Htop i j Hin Hj Hjout) as Habove.
    by rewrite (pair_lt_asym _ _ Habove) in Hbelow.
Qed.

(** Three classes tie at 7: they come out as 4, 2, 1. *)
Example tie_break_evaluated :
  get_top_n_elems [4; 7; 7; 1; 7] [] [] 3 = Ok ([4; 2; 1], [7; 7; 7]).
Proof. by vm_compute. Qed.

(** C5: a voxel with 257 classes of equal count passes
    [CHECK_LT(class_count, 258)], but the bound of the push loop,
    [static_cast<uint8_t>(257)], is 1: class 0 alone enters the queue and
    is the first class taken, although classes 1 to 256 have the same
    count and a higher index.  With n = 1 the call returns class 0 as the
    selection; with n = 3 the second iteration takes the top of the empty
    queue, and the encoder with it. *)
Theorem tie_break_lost_with_257_classes :
  (3 ≤ length (counts tied_voxel) < 258)%nat
  ∧ counts tied_voxel !! 0%nat = Some 7
  ∧ counts tied_voxel !! 256%nat = Some 7
  ∧ Z.to_nat (uint8 (Z.of_nat (length (counts tied_voxel)))) = 1%nat
  ∧ pq_top (push_loop (counts tied_voxel) 0
              (Z.to_nat (uint8 (Z.of_nat (length (counts tied_voxel))))) [])
    = Some (7, 0)
  ∧ get_top_n_elems (counts tied_voxel) [] [] 1 = Ok ([0], [7])
  ∧ ¬ ties_prefer_higher_index (counts tied_voxel) [0]
  ∧ get_top_n_elems (counts tied_voxel) [] [] 3 = Err EmptyHeapTop
  ∧ convertVoxelToInt32 3 16 tied_voxel [] = Err EmptyHeapTop
  ∧ convertVoxelToInt32 1 16 tied_voxel []
    = Ok (true, [257; 0x00000001; 0x00000000; 0x00000000; 0x00000007]).
Proof.
  split_and!; try by vm_compute.
  - vm_compute. lia.
  - intros Hties.
    destruct (Hties 0%nat 256%nat 0%nat 7) as (pos_j & Hlt & _); [lia|done..|lia].
Qed.

(** The word sequence [stray_index_words] declares one class and carries
    the index slots 1, 2 and 3; read into a voxel that already holds five
    counts, [readVoxelFromInt32] returns normally and has written the
    counts 7, 8 and 9 at positions 1, 2 and 3, all at or beyond the
    declared class count.  The only check is the one of
    [std::vector::at] against the size of the vector: read into a voxel
    with empty counts, the same words raise [std::out_of_range]. *)
Example stray_index_written_into_used_voxel :
  ∃ (num_classes idx : Z) (voxel' : ClassVoxel),
    stray_index_words !! 0%nat = Some num_classes
    ∧ 0 < num_classes
    ∧ uint8 (extract_bits 0x00030201 16) = idx
    ∧ num_classes ≤ idx
    ∧ readVoxelFromInt32 3 16 stray_index_words 0 used_voxel
        = Ok (true, length stray_index_words, voxel')
    ∧ counts voxel' = [0; 7; 8; 9; 0; 0]
    ∧ counts voxel' !! Z.to_nat idx = Some 9
    ∧ readVoxelFromInt32 3 16 stray_index_words 0 empty_voxel = Err OutOfRange.
Proof. eexists _, _, _. by vm_compute. Qed.

(** C10 (encoding is not total for small non-zero class counts): for a
    voxel with C classes, 0 < C < TOP_N, [convertVoxelToInt32] does not
    return: once C has passed [CHECK_LT(class_count, 258)] the queue holds
    fewer than TOP_N pairs and the pop loop takes the top of the empty
    queue.  Hence a call that returns has C = 0 or C >= TOP_N. *)
Theorem small_class_count_reads_empty_heap (TOP_N bits : nat)
    (voxel : ClassVoxel) (data : list Z) :
  let C := length (counts voxel) in
  ((0 < C < TOP_N)%nat →
     convertVoxelToInt32 TOP_N bits voxel data
       = Err (if decide (C < 258)%nat then EmptyHeapTop else CheckFailed))
  ∧ (is_Ok (convertVoxelToInt32 TOP_N bits voxel data) → C = 0%nat ∨ (TOP_N ≤ C)%nat).
Proof.
  intros C.
  assert ((0 < C < TOP_N)%nat →
          convertVoxelToInt32 TOP_N bits voxel data
            = Err (if decide (C < 258)%nat then EmptyHeapTop else CheckFailed)) as Hsmall.
  { intros HC. unfold convertVoxelToInt32. fold C. case_decide; [|done].
    rewrite decide_False by lia. unfold get_top_n_elems.
    rewrite push_loop_spec, app_nil_r, pop_loop_popped, popped_short; [done|].
    rewrite length_reverse, length_fmap, length_seq. fold C.
    unfold uint8. pose proof (Z.mod_pos_bound (Z.of_nat C) (2 ^ 8) ltac:(lia)).
    assert (Z.of_nat C mod 2 ^ 8 ≤ Z.of_nat C) by (apply Z.mod_le; lia). lia. }
  split; [done|]. intros [r Hr].
  destruct (decide (C = 0)%nat); [by left|]. right.
  destruct (decide (TOP_N ≤ C)%nat); [done|].
  rewrite Hsmall in Hr by lia. done.
Qed.

Lemma small_class_count_reads_empty_heap_witness :
  convertVoxelToInt32 3 16
    {| counts := [5; 9]; current_index := 1;
       belongs_count := 10; foreign_count := 2; is_gt := false |} []
  = Err EmptyHeapTop.
Proof.
  apply (proj1 (small_class_count_reads_empty_heap 3 16
    {| counts := [5; 9]; current_index := 1;
       belongs_count := 10; foreign_count := 2; is_gt := false |} [])).
  simpl. lia.
Defined.

(** * Further properties of voxel fusion *)

Section MoreFusionFacts.
Context {Prob Scalar : Type}.
Variable p : ClassVoxel → Prob.
Variable gt : Prob → Prob → bool.
Variable add : Scalar → Scalar → Scalar.
Variable half : Scalar → Scalar.

Lemma merge_whole (A B : ClassVoxel) :
  mergeVoxelAIntoVoxelB p gt A B = if adopts p gt A B then A else B.
Proof.
  unfold mergeVoxelAIntoVoxelB, adopts.
  destruct A as [cA iA bA fA gA], B as [cB iB bB fB gB]; simpl.
  destruct gA; simpl; [done|].
  destruct (gt _ _); simpl; [|done]. by destruct gB.
Qed.

Lemma fuse_all_protected (voxels : list ClassVoxel) (B : ClassVoxel) :
  is_gt B = true → Forall (λ A, is_gt A = false) voxels →
  fuse_all p gt voxels B = B.
Proof.
  intros HB Hvoxels. induction Hvoxels as [|A voxels HA _ IH]; [done|].
  unfold fuse_all in *. simpl. rewrite merge_not_adopted; [done|].
  unfold adopts. by rewrite HA, HB, andb_false_r.
Qed.

Lemma fuse_all_app (voxels voxels' : list ClassVoxel) (B : ClassVoxel) :
  fuse_all p gt (voxels ++ voxels') B = fuse_all p gt voxels' (fuse_all p gt voxels B).
Proof. unfold fuse_all. by rewrite foldl_app. Qed.

Lemma merge_uncertainty_frozen (A B : ClassUncertaintyVoxel Scalar) :
  is_gt (base_voxel B) = true →
  uncertainty_value (mergeUncertaintyVoxelAIntoVoxelB p gt add half A B)
  = uncertainty_value B.
Proof.
  intros HB. unfold mergeUncertaintyVoxelAIntoVoxelB.
  by rewrite merge_is_gt, HB.
Qed.

End MoreFusionFacts.

(** X1: the [ClassVoxel] merge never mixes the two voxels: the new B is
    the whole of A (all five fields, [is_gt] included) when the guard of
    the first [if] holds, and the old B otherwise. *)
Theorem merge_takes_whole_voxel {Prob : Type} (p : ClassVoxel → Prob)
    (gt : Prob → Prob → bool) (A B : ClassVoxel) :
  mergeVoxelAIntoVoxelB p gt A B
  = if is_gt A || (gt (p A) (p B) && negb (is_gt B)) then A else B.
Proof. apply merge_whole. Qed.

(** X2: when no probability is greater than itself, the [ClassVoxel]
    merge is idempotent, and merging a voxel into itself changes
    nothing. *)
Theorem merge_idempotent {Prob : Type} (p : ClassVoxel → Prob)
    (gt : Prob → Prob → bool) (A B : ClassVoxel) :
  (∀ x, gt x x = false) →
  mergeVoxelAIntoVoxelB p gt A (mergeVoxelAIntoVoxelB p gt A B)
    = mergeVoxelAIntoVoxelB p gt A B
  ∧ mergeVoxelAIntoVoxelB p gt A A = A.
Proof.
  intros Hirr.
  assert (mergeVoxelAIntoVoxelB p gt A A = A) as HAA.
  { rewrite merge_whole. by destruct (adopts p gt A A). }
  split; [|done].
  rewrite (merge_whole p gt A B). destruct (adopts p gt A B) eqn:E; [done|].
  rewrite merge_whole. by rewrite E.
Qed.

Lemma merge_idempotent_witness :
  mergeVoxelAIntoVoxelB specBelongingProbability Q_gt scenario_voxel
    (mergeVoxelAIntoVoxelB specBelongingProbability Q_gt scenario_voxel empty_voxel)
    = mergeVoxelAIntoVoxelB specBelongingProbability Q_gt scenario_voxel empty_voxel
  ∧ mergeVoxelAIntoVoxelB specBelongingProbability Q_gt scenario_voxel scenario_voxel
    = scenario_voxel.
Proof.
  apply (merge_idempotent specBelongingProbability Q_gt scenario_voxel empty_voxel).
  intros x. unfold Q_gt. destruct (x ?= x)%Q eqn:E; try reflexivity.
  exfalso. apply Qgt_alt in E. exact (Qlt_irrefl x E).
Defined.

(** X3: a ground-truth voxel is protected: fusing any sequence of voxels
    that are not ground truth into it leaves all of its fields as they
    were. *)
Theorem ground_truth_voxel_is_protected {Prob : Type} (p : ClassVoxel → Prob)
    (gt : Prob → Prob → bool) (voxels : list ClassVoxel) (B : ClassVoxel) :
  is_gt B = true → Forall (λ A, is_gt A = false) voxels →
  fuse_all p gt voxels B = B.
Proof. apply fuse_all_protected. Qed.

Lemma ground_truth_voxel_is_protected_witness :
  fuse_all specBelongingProbability Q_gt [scenario_voxel; empty_voxel]
    {| counts := [1; 2; 3]; current_index := 2;
       belongs_count := 1; foreign_count := 9; is_gt := true |}
  = {| counts := [1; 2; 3]; current_index := 2;
       belongs_count := 1; foreign_count := 9; is_gt := true |}.
Proof.
  apply (ground_truth_voxel_is_protected specBelongingProbability Q_gt).
  - reflexivity.
  - repeat constructor.
Defined.

(** X4: the last ground-truth voxel wins: when a ground-truth voxel A is
    fused into B and only voxels that are not ground truth follow, B ends
    up equal to A, whatever B and the earlier voxels were. *)
Theorem last_ground_truth_wins {Prob : Type} (p : ClassVoxel → Prob)
    (gt : Prob → Prob → bool) (before after : list ClassVoxel) (A B : ClassVoxel) :
  is_gt A = true → Forall (λ A', is_gt A' = false) after →
  fuse_all p gt (before ++ A :: after) B = A.
Proof.
  intros HA Hafter.
  rewrite fuse_all_app. change (A :: after) with ([A] ++ after).
  rewrite fuse_all_app. unfold fuse_all at 2. simpl.
  rewrite merge_whole. unfold adopts. rewrite HA. simpl.
  by apply fuse_all_protected.
Qed.

Lemma last_ground_truth_wins_witness :
  fuse_all specBelongingProbability Q_gt
    ([scenario_voxel]
     ++ {| counts := [1; 2; 3]; current_index := 2;
           belongs_count := 1; foreign_count := 9; is_gt := true |}
     :: [scenario_voxel; empty_voxel]) empty_voxel
  = {| counts := [1; 2; 3]; current_index := 2;
       belongs_count := 1; foreign_count := 9; is_gt := true |}.
Proof.
  apply (last_ground_truth_wins specBelongingProbability Q_gt).
  - reflexivity.
  - repeat constructor.
Defined.

(** X5: the uncertainty of a ground-truth voxel is frozen: whatever
    sequence of voxels is fused into a ground-truth [ClassUncertaintyVoxel],
    its [uncertainty_value] stays the same. *)
Theorem ground_truth_uncertainty_is_frozen {Prob Scalar : Type} (p : ClassVoxel → Prob)
    (gt : Prob → Prob → bool) (add : Scalar → Scalar → Scalar) (half : Scalar → Scalar)
    (voxels : list (ClassUncertaintyVoxel Scalar)) (B : ClassUncertaintyVoxel Scalar) :
  is_gt (base_voxel B) = true →
  uncertainty_value (fuse_all_uncertainty p gt add half voxels B) = uncertainty_value B.
Proof.
  revert B. induction voxels as [|A voxels IH]; intros B HB; [done|].
  unfold fuse_all_uncertainty in *. simpl. rewrite IH.
  - by apply merge_uncertainty_frozen.
  - by rewrite merge_uncertainty_is_gt, HB.
Qed.

Lemma ground_truth_uncertainty_is_frozen_witness :
  uncertainty_value
    (fuse_all_uncertainty specBelongingProbability Q_gt Qplus Q_half
       [mkClassUncertaintyVoxel scenario_voxel 0%Q;
        mkClassUncertaintyVoxel empty_voxel (1 # 2)%Q]
       (mkClassUncertaintyVoxel
          {| counts := []; current_index := -1;
             belongs_count := 0; foreign_count := 0; is_gt := true |} 1%Q))
  = 1%Q.
Proof.
  apply (ground_truth_uncertainty_is_frozen specBelongingProbability Q_gt Qplus Q_half).
  reflexivity.
Defined.

(** X6: fusing a ground-truth voxel A into B copies the class fields of A
    and makes B ground truth, but B keeps its own [uncertainty_value]: the
    uncertainty of A is not taken over. *)
Theorem ground_truth_merge_keeps_uncertainty {Prob Scalar : Type} (p : ClassVoxel → Prob)
    (gt : Prob → Prob → bool) (add : Scalar → Scalar → Scalar) (half : Scalar → Scalar)
    (A B : ClassUncertaintyVoxel Scalar) :
  is_gt (base_voxel A) = true →
  mergeUncertaintyVoxelAIntoVoxelB p gt add half A B
  = {| base_voxel := base_voxel A; uncertainty_value := uncertainty_value B |}.
Proof.
  intros HA. unfold mergeUncertaintyVoxelAIntoVoxelB.
  rewrite merge_is_gt, HA, orb_true_r. simpl.
  rewrite merge_whole. unfold adopts. by rewrite HA.
Qed.

Lemma ground_truth_merge_keeps_uncertainty_witness :
  mergeUncertaintyVoxelAIntoVoxelB specBelongingProbability Q_gt Qplus Q_half
    (mkClassUncertaintyVoxel
       {| counts := [1; 2; 3]; current_index := 2;
          belongs_count := 1; foreign_count := 9; is_gt := true |} 0%Q)
    (mkClassUncertaintyVoxel scenario_voxel 1%Q)
  = mkClassUncertaintyVoxel
      {| counts := [1; 2; 3]; current_index := 2;
         belongs_count := 1; foreign_count := 9; is_gt := true |} 1%Q.
Proof.
  apply (ground_truth_merge_keeps_uncertainty specBelongingProbability Q_gt Qplus Q_half).
  reflexivity.
Defined.

(** * Further properties of the sub-map collection *)

Section MoreCollectionFacts.
Context {Submap : Type}.
Variable getID : Submap → Z.
Implicit Types c : SubmapCollection Submap.

Lemma reachable_size c :
  reachable getID c → size (id_to_index_ c) = length (submaps_ c).
Proof.
  induction 1 as [|c s _ IH Hfresh|c s _ IH Hfresh|c id r c' _ IH Hrem|c _ IH].
  - done.
  - rewrite createSubmap_addSubmap. simpl.
    rewrite map_size_insert_None, length_app by done. simpl. lia.
  - simpl. rewrite map_size_insert_None, length_app by done. simpl. lia.
  - unfold removeSubmap in Hrem.
    destruct (id_to_index_ c !! id) as [i|] eqn:Hi; [|by injection Hrem as <- <-].
    case_decide as Hlt; [|done]. injection Hrem as <- <-. simpl.
    rewrite map_size_fmap, map_size_delete, Hi.
    rewrite length_delete by by apply lookup_lt_is_Some_2. lia.
  - done.
Qed.

Lemma index_matches_NoDup c :
  index_matches_storage getID c → NoDup (getID <$> submaps_ c).
Proof.
  intros Hc. apply NoDup_alt. intros i j id Hi Hj.
  rewrite list_lookup_fmap in Hi, Hj.
  destruct (submaps_ c !! i) as [s|] eqn:Hsi; [|done].
  destruct (submaps_ c !! j) as [s'|] eqn:Hsj; [|done].
  simpl in Hi, Hj. injection Hi as Hi. injection Hj as Hj.
  assert (id_to_index_ c !! id = Some i) as H1 by (apply Hc; eauto).
  assert (id_to_index_ c !! id = Some j) as H2 by (apply Hc; eauto).
  congruence.
Qed.

Lemma index_matches_size c :
  index_matches_storage getID c → size (id_to_index_ c) = length (submaps_ c).
Proof.
  intros Hc.
  set (pairs := imap (λ i s, (getID s, i)) (submaps_ c)).
  assert (pairs.*1 = getID <$> submaps_ c) as Hkeys.
  { unfold pairs. rewrite fmap_imap. apply list_eq. intros i.
    rewrite list_lookup_imap, list_lookup_fmap. by destruct (submaps_ c !! i). }
  assert (NoDup pairs.*1) as Hnodup by (rewrite Hkeys; by apply index_matches_NoDup).
  assert (id_to_index_ c = list_to_map pairs) as ->.
  { apply map_eq. intros id. apply option_eq. intros i.
    rewrite <-elem_of_list_to_map by done. unfold pairs.
    rewrite elem_of_lookup_imap, (Hc id i). split.
    - intros (s & Hs & <-). eauto.
    - intros (i' & s & [= -> ->] & Hs). eauto. }
  rewrite map_size_list_to_map by done. unfold pairs. by rewrite length_imap.
Qed.

Lemma shift_down_below (p : nat) (m : gmap Z nat) :
  (∀ id i, m !! id = Some i → (i < p)%nat) → shift_down p <$> m = m.
Proof.
  intros Hm. apply map_eq. intros id. rewrite lookup_fmap.
  destruct (m !! id) as [i|] eqn:Hi; [|done]. simpl.
  unfold shift_down. by rewrite decide_False by (apply Hm in Hi; lia).
Qed.

End MoreCollectionFacts.

(** X7: in every state reached from the empty collection the index has
    exactly as many entries as there are stored sub-maps, and no two
    stored sub-maps carry the same id. *)
Theorem reachable_index_size_and_unique_ids {Submap : Type} (getID : Submap → Z)
    (c : SubmapCollection Submap) :
  reachable getID c →
  size (id_to_index_ c) = length (submaps_ c) ∧ NoDup (getID <$> submaps_ c).
Proof.
  intros Hc. split; [by apply (reachable_size getID)|].
  by apply (index_matches_NoDup getID), reachable_index_matches.
Qed.

Lemma reachable_index_size_and_unique_ids_witness :
  size (id_to_index_ scenario_collection) = 2%nat
  ∧ NoDup (example_id <$> submaps_ scenario_collection).
Proof.
  apply (reachable_index_size_and_unique_ids example_id scenario_collection).
  exact scenario_reachable.
Defined.

(** X8: adding a sub-map under an id that is not in the index and then
    removing that id gives back the collection as it was (when the index
    matches the storage, as it does in every reachable state); the same
    holds for createSubmap. *)
Theorem add_then_remove {Submap : Type} (getID : Submap → Z)
    (c : SubmapCollection Submap) (s : Submap) :
  index_matches_storage getID c →
  id_to_index_ c !! getID s = None →
  removeSubmap (getID s) (addSubmap getID s c) = Some (true, c)
  ∧ removeSubmap (getID s) (createSubmap getID s c).2 = Some (true, c).
Proof.
  intros Hc Hfresh. rewrite createSubmap_addSubmap.
  assert (removeSubmap (getID s) (addSubmap getID s c) = Some (true, c)) as Hrem; [|done].
  unfold removeSubmap, addSubmap. simpl. rewrite lookup_insert_eq.
  rewrite decide_True by (rewrite length_app; simpl; lia).
  destruct c as [submaps index]. simpl in *. do 3 f_equal.
  - rewrite (delete_middle submaps [] s). apply app_nil_r.
  - rewrite delete_insert_eq, delete_id by done.
    apply shift_down_below. intros id i Hi.
    by apply (index_in_range getID {| submaps_ := submaps; id_to_index_ := index |} id).
Qed.

Lemma add_then_remove_witness :
  removeSubmap 7 (addSubmap example_id (mkExampleSubmap 7 8) scenario_collection)
    = Some (true, scenario_collection)
  ∧ removeSubmap 7 (createSubmap example_id (mkExampleSubmap 7 8) scenario_collection).2
    = Some (true, scenario_collection).
Proof.
  apply (add_then_remove example_id scenario_collection (mkExampleSubmap 7 8)).
  - exact (reachable_index_matches example_id scenario_collection scenario_reachable).
  - reflexivity.
Defined.

(** X9: removing one sub-map does not change what another id resolves
    to, provided the removed id is not recorded at the same position as
    that id: an id recorded at a position holding sub-map [s] is, after
    the removal of a different id recorded elsewhere (or not at all),
    still recorded at a position that holds [s].  Nothing else is asked of
    the collection. *)
Theorem remove_keeps_other_submaps {Submap : Type}
    (c c' : SubmapCollection Submap) (id id' : Z) (r : bool) (i : nat) (s : Submap) :
  removeSubmap id c = Some (r, c') →
  id' ≠ id →
  id_to_index_ c !! id' = Some i → submaps_ c !! i = Some s →
  id_to_index_ c !! id ≠ Some i →
  ∃ i', id_to_index_ c' !! id' = Some i' ∧ submaps_ c' !! i' = Some s.
Proof.
  intros Hrem Hne Hi Hs Hapart. unfold removeSubmap in Hrem.
  destruct (id_to_index_ c !! id) as [p|] eqn:Hp; [|injection Hrem as <- <-; eauto].
  case_decide as Hlt; [|done]. injection Hrem as <- <-. simpl.
  exists (shift_down p i). split.
  - by rewrite lookup_fmap, lookup_delete_ne, Hi by done.
  - rewrite lookup_delete_shift_down; [done|]. intros ->. by apply Hapart.
Qed.

Lemma remove_keeps_other_submaps_witness :
  ∃ i', id_to_index_ scenario_collection !! 3 = Some i'
        ∧ submaps_ scenario_collection !! i' = Some (mkExampleSubmap 3 16).
Proof.
  apply (remove_keeps_other_submaps three_submaps scenario_collection 2 3 true 2%nat).
  - by vm_compute.
  - discriminate.
  - reflexivity.
  - reflexivity.
  - by vm_compute.
Defined.

(** X10: for an id in the index (of a collection whose index matches its
    storage) getSubmap returns the stored sub-map that carries this id and
    leaves the collection unchanged. *)
Theorem getSubmap_present {Submap : Type} (getID : Submap → Z)
    (c : SubmapCollection Submap) (id : Z) :
  index_matches_storage getID c →
  submapIdExists id c = true →
  ∃ s, getSubmap id c = Some (s, c) ∧ getID s = id ∧ s ∈ submaps_ c.
Proof.
  intros Hc [i Hi]%bool_decide_eq_true. unfold getSubmap. rewrite Hi. simpl.
  apply Hc in Hi as (s & Hs & Hid). rewrite Hs. exists s.
  split; [by destruct c|]. split; [done|]. by eapply list_elem_of_lookup_2.
Qed.

Lemma getSubmap_present_witness :
  ∃ s, getSubmap 3 scenario_collection = Some (s, scenario_collection)
       ∧ example_id s = 3 ∧ s ∈ submaps_ scenario_collection.
Proof.
  apply (getSubmap_present example_id scenario_collection 3).
  - exact (reachable_index_matches example_id scenario_collection scenario_reachable).
  - reflexivity.
Defined.

(** X11: getSubmap on an id that is not in the index is not a pure
    lookup: on a non-empty collection it returns the first stored sub-map
    and registers the id at position 0, so that submapIdExists answers
    true for it afterwards, and, when the first sub-map carries another
    id, the index no longer matches the storage; on an empty collection the
    vector access is past the end. *)
Theorem getSubmap_absent_registers_id {Submap : Type} (getID : Submap → Z)
    (c : SubmapCollection Submap) (id : Z) :
  id_to_index_ c !! id = None →
  match submaps_ c with
  | [] => getSubmap id c = None
  | first :: _ =>
      ∃ c', getSubmap id c = Some (first, c')
            ∧ submaps_ c' = submaps_ c
            ∧ id_to_index_ c' = <[id := 0%nat]> (id_to_index_ c)
            ∧ submapIdExists id c' = true
            ∧ (getID first ≠ id → ¬ index_matches_storage getID c')
  end.
Proof.
  intros Hid. unfold getSubmap. rewrite Hid. simpl.
  destruct (submaps_ c) as [|first rest] eqn:Hs; [done|]. simpl.
  eexists. split; [done|]. simpl. split_and!; try done.
  - unfold submapIdExists. simpl. rewrite lookup_insert_eq. by apply bool_decide_eq_true.
  - intros Hne Hc'. destruct (proj1 (Hc' id 0%nat)) as (s & Hs0 & Hs1); simpl.
    + by rewrite lookup_insert_eq.
    + simpl in Hs0. congruence.
Qed.

Lemma getSubmap_absent_registers_id_witness :
  ∃ c', getSubmap 2 scenario_collection = Some (mkExampleSubmap 1 16, c')
        ∧ submaps_ c' = submaps_ scenario_collection
        ∧ id_to_index_ c' = <[2 := 0%nat]> (id_to_index_ scenario_collection)
        ∧ submapIdExists 2 c' = true
        ∧ (example_id (mkExampleSubmap 1 16) ≠ 2 → ¬ index_matches_storage example_id c').
Proof.
  apply (getSubmap_absent_registers_id example_id scenario_collection 2). reflexivity.
Defined.

(** X12: in a collection whose index matches its storage, addSubmap with
    an id that is already in the index, at position i, moves the id to the
    new last position: the sub-map stored at i stays in the storage, but no
    id resolves to position i any more; the index keeps its number of
    entries while the storage grows by one, so the index has fewer entries
    than there are stored sub-maps and no longer matches the storage. *)
Theorem addSubmap_known_id_orphans {Submap : Type} (getID : Submap → Z)
    (c : SubmapCollection Submap) (s : Submap) (i : nat) :
  index_matches_storage getID c →
  id_to_index_ c !! getID s = Some i →
  let c' := addSubmap getID s c in
  id_to_index_ c' !! getID s = Some (length (submaps_ c))
  ∧ submaps_ c' !! i = submaps_ c !! i
  ∧ is_Some (submaps_ c' !! i)
  ∧ (∀ id, id_to_index_ c' !! id ≠ Some i)
  ∧ size (id_to_index_ c') = size (id_to_index_ c)
  ∧ length (submaps_ c') = S (length (submaps_ c))
  ∧ (size (id_to_index_ c') < length (submaps_ c'))%nat
  ∧ ¬ index_matches_storage getID c'.
Proof.
  intros Hc Hi c'. pose proof (index_in_range getID c _ _ Hc Hi) as Hlt.
  pose proof (index_matches_size getID c Hc) as Hsize.
  assert (size (id_to_index_ c') = size (id_to_index_ c)) as Hsame
    by (subst c'; simpl; by rewrite map_size_insert, Hi).
  assert (length (submaps_ c') = S (length (submaps_ c))) as Hgrown
    by (subst c'; simpl; rewrite length_app; simpl; lia).
  split_and!; try done.
  - subst c'. simpl. by rewrite lookup_insert_eq.
  - subst c'. simpl. by rewrite lookup_app_l.
  - apply lookup_lt_is_Some_2. lia.
  - subst c'. simpl. intros id Hid. destruct (decide (getID s = id)) as [<-|Hne].
    + rewrite lookup_insert_eq in Hid. injection Hid. lia.
    + rewrite lookup_insert_ne in Hid by done.
      by apply Hne, (index_injective getID c _ _ i).
  - lia.
  - intros Hc'. pose proof (index_matches_size getID c' Hc'). lia.
Qed.

Lemma addSubmap_known_id_orphans_witness :
  let c' := addSubmap example_id (mkExampleSubmap 1 8) scenario_collection in
  id_to_index_ c' !! 1 = Some 2%nat
  ∧ submaps_ c' !! 0%nat = submaps_ scenario_collection !! 0%nat
  ∧ is_Some (submaps_ c' !! 0%nat)
  ∧ (∀ id, id_to_index_ c' !! id ≠ Some 0%nat)
  ∧ size (id_to_index_ c') = size (id_to_index_ scenario_collection)
  ∧ length (submaps_ c') = 3%nat
  ∧ (size (id_to_index_ c') < length (submaps_ c'))%nat
  ∧ ¬ index_matches_storage example_id c'.
Proof.
  apply (addSubmap_known_id_orphans example_id scenario_collection (mkExampleSubmap 1 8) 0).
  - exact (reachable_index_matches example_id scenario_collection scenario_reachable).
  - reflexivity.
Defined.

(** * Further properties of the top-N selection *)

Lemma pushed_bound (all_items : list Z) :
  (Z.to_nat (uint8 (Z.of_nat (length all_items))) ≤ length all_items)%nat
  ∧ (Z.to_nat (uint8 (Z.of_nat (length all_items))) ≤ 255)%nat.
Proof.
  unfold uint8.
  pose proof (Z.mod_pos_bound (Z.of_nat (length all_items)) (2 ^ 8) ltac:(lia)).
  assert (Z.of_nat (length all_items) mod 2 ^ 8 ≤ Z.of_nat (length all_items))
    by (apply Z.mod_le; lia).
  lia.
Qed.

Lemma queue_length (all_items : list Z) (k : nat) :
  length (push_loop all_items 0 k []) = k.
Proof. by rewrite push_loop_spec, app_nil_r, length_reverse, length_fmap, length_seq. Qed.

(** X13: [get_top_n_elems] returns exactly when [n] is at most the number
    of pairs pushed, which is the size of [all_items] reduced modulo 256;
    otherwise it takes the top of an empty queue. *)
Theorem get_top_n_elems_returns_iff (all_items indices counts : list Z) (n : nat) :
  let pushed := Z.to_nat (Z.of_nat (length all_items) mod 2 ^ 8) in
  (is_Ok (get_top_n_elems all_items indices counts n) ↔ (n ≤ pushed)%nat)
  ∧ (get_top_n_elems all_items indices counts n = Err EmptyHeapTop ↔ (pushed < n)%nat).
Proof.
  intros pushed. unfold get_top_n_elems, uint8.
  change (Z.to_nat (Z.of_nat (length all_items) mod 2 ^ 8)) with pushed.
  rewrite pop_loop_popped.
  destruct (decide (n ≤ pushed)%nat) as [Hle|Hgt].
  - destruct (popped_spec n (push_loop all_items 0 pushed [])) as (out & rest & -> & _);
      [by rewrite queue_length|].
    split; split; try done; try lia. intros _. by eexists.
  - rewrite popped_short by (rewrite queue_length; lia).
    split; split; try done; try lia. by intros [? ?].
Qed.

(** X14: for [n <= size <= 255], [get_top_n_elems] appends to [indices]
    and [counts] the n greatest classes by (count, index): each appended
    count is the count of the class at the same position of the appended
    indices, the classes are distinct, they come in strictly decreasing
    order of (count, index), and every class left out is below every
    class taken. *)
Theorem get_top_n_elems_selects_greatest (all_items indices counts : list Z) (n : nat) :
  (n ≤ length all_items ≤ 255)%nat →
  ∃ selected : list nat,
    get_top_n_elems all_items indices counts n
      = Ok (indices ++ (Z.of_nat <$> selected),
            counts ++ ((all_items !!!.) <$> selected))
    ∧ length selected = n
    ∧ NoDup selected
    ∧ (∀ i, i ∈ selected → is_Some (all_items !! i))
    ∧ (∀ (a b ia ib : nat), (a < b)%nat →
         selected !! a = Some ia → selected !! b = Some ib →
         pair_lt (entry all_items ib) (entry all_items ia) = true)
    ∧ (∀ i j, i ∈ selected → is_Some (all_items !! j) → j ∉ selected →
         pair_lt (entry all_items j) (entry all_items i) = true).
Proof.
  intros Hn.
  destruct (get_top_n_elems_spec all_items indices counts n Hn)
    as (selected & Heq & (Hlen & Hnodup & Hlt & Htop) & Hdesc).
  exists selected. split_and!; try done.
  - intros i Hi. by apply lookup_lt_is_Some_2, Hlt.
  - intros a b ia ib Hab Ha Hb.
    assert (pair_lt (entry all_items ia) (entry all_items ib) = false) as Hle.
    { eapply (descending_lookup _ a b); [done| | |done]; by rewrite list_lookup_fmap, ?Ha, ?Hb. }
    destruct (pair_lt (entry all_items ib) (entry all_items ia)) eqn:E; [done|].
    pose proof (pair_lt_total _ _ Hle E) as Heq'. apply entry_inj in Heq' as ->.
    pose proof (proj1 (NoDup_alt selected) Hnodup a b ib Ha Hb). lia.
  - intros i j Hi Hj Hnot. apply Htop; [done| |done]. by apply lookup_lt_is_Some_1.
Qed.

Lemma get_top_n_elems_selects_greatest_witness :
  ∃ selected : list nat,
    get_top_n_elems [5; 0; 9; 3] [7] [8] 3
      = Ok ([7] ++ (Z.of_nat <$> selected), [8] ++ (([5; 0; 9; 3] !!!.) <$> selected))
    ∧ length selected = 3%nat
    ∧ NoDup selected
    ∧ (∀ i, i ∈ selected → is_Some ([5; 0; 9; 3] !! i))
    ∧ (∀ (a b ia ib : nat), (a < b)%nat →
         selected !! a = Some ia → selected !! b = Some ib →
         pair_lt (entry [5; 0; 9; 3] ib) (entry [5; 0; 9; 3] ia) = true)
    ∧ (∀ i j, i ∈ selected → is_Some ([5; 0; 9; 3] !! j) → j ∉ selected →
         pair_lt (entry [5; 0; 9; 3] j) (entry [5; 0; 9; 3] i) = true).
Proof.
  apply (get_top_n_elems_selects_greatest [5; 0; 9; 3] [7] [8] 3). simpl. lia.
Defined.

(** X15: [get_top_n_elems] looks only at the first (size mod 256) classes:
    its result on [all_items] is its result on that prefix, so classes from
    position 256 on of a longer sequence are never selected. *)
Theorem get_top_n_elems_ignores_tail (all_items indices counts : list Z) (n : nat) :
  get_top_n_elems all_items indices counts n
  = get_top_n_elems
      (take (Z.to_nat (Z.of_nat (length all_items) mod 2 ^ 8)) all_items)
      indices counts n.
Proof.
  destruct (pushed_bound all_items) as [Hk Hk']. unfold uint8 in Hk, Hk'.
  set (k := Z.to_nat (Z.of_nat (length all_items) mod 2 ^ 8)) in *.
  unfold get_top_n_elems. rewrite length_take, Nat.min_l by done.
  rewrite (uint8_small k) by done. unfold uint8.
  change (Z.to_nat (Z.of_nat (length all_items) mod 2 ^ 8)) with k.
  rewrite !push_loop_spec. do 3 f_equal.
  apply list_fmap_ext. intros pos j Hpos.
  apply list_elem_of_lookup_2, elem_of_seq in Hpos as [_ Hj].
  unfold entry. f_equal. symmetry. apply lookup_total_take_lt. simpl in Hj. lia.
Qed.

(** * Further properties of the bit packing *)

Lemma convert_loop_append (bits dp : nat) (rest : list Z) :
  ∀ (i saved : nat) (acc : Z) (out0 ws : list Z),
  convert_loop bits dp rest i (saved, acc, out0 ++ ws)
  = let '(saved', acc', ws') := convert_loop bits dp rest i (saved, acc, ws) in
    (saved', acc', out0 ++ ws').
Proof.
  induction rest as [|d rest IH]; intros i saved acc out0 ws; [done|].
  cbn [convert_loop]. case_decide.
  - rewrite <-app_assoc. apply IH.
  - apply IH.
Qed.

Lemma convert_vector_append (data out : list Z) (bits : nat) :
  convert_vector_to_uint32 data out bits = out ++ convert_vector_to_uint32 data [] bits.
Proof.
  unfold convert_vector_to_uint32.
  rewrite <-(app_nil_r out) at 1. rewrite convert_loop_append.
  destruct (convert_loop bits (32 / bits) data 0 (0%nat, 0, [])) as [[saved acc] ws].
  case_decide; [|done]. by rewrite app_assoc.
Qed.

Lemma ceil_div_quot_rem (dp q r : nat) :
  (r < dp)%nat → ceil_div (q * dp + r) dp = (if decide (r = 0)%nat then q else S q).
Proof.
  intros Hr. unfold ceil_div. case_decide as H0.
  - subst r. symmetry. apply Nat.div_unique with (dp - 1)%nat; lia.
  - symmetry. apply Nat.div_unique with (r - 1)%nat; lia.
Qed.

Lemma convert_loop_shape (bits dp : nat) (rest : list Z) :
  ∀ (q r : nat) (acc : Z) (ws : list Z),
  (r < dp)%nat → length ws = q →
  ∃ (q' r' : nat) (acc' : Z) (ws' : list Z),
    convert_loop bits dp rest (q * dp + r) ((q * dp)%nat, acc, ws) = ((q' * dp)%nat, acc', ws')
    ∧ length ws' = q' ∧ (r' < dp)%nat
    ∧ (q * dp + r + length rest = q' * dp + r')%nat.
Proof.
  induction rest as [|d rest IH]; intros q r acc ws Hr Hws.
  - exists q, r, acc, ws. simpl. split_and!; first [done|lia].
  - cbn [convert_loop].
    replace ((q * dp + r) mod dp)%nat with r by (apply Nat.mod_unique with q; lia).
    case_decide as Hlast.
    + replace (q * dp + dp)%nat with (S q * dp)%nat by lia.
      replace (S (q * dp + r)) with (S q * dp + 0)%nat by lia.
      destruct (IH (S q) 0%nat 0 (ws ++ [uint32 (acc + Z.shiftl d (Z.of_nat (r * bits)))]))
        as (q' & r' & acc' & ws' & -> & Hlen & Hr' & Hsum);
        [lia|rewrite length_app; simpl; lia|].
      exists q', r', acc', ws'. split_and!; first [done|simpl; lia].
    + replace (S (q * dp + r)) with (q * dp + S r)%nat by lia.
      destruct (IH q (S r) (uint32 (acc + Z.shiftl d (Z.of_nat (r * bits)))) ws)
        as (q' & r' & acc' & ws' & -> & Hlen & Hr' & Hsum); [lia|done|].
      exists q', r', acc', ws'. split_and!; first [done|simpl; lia].
Qed.

Lemma convert_vector_length (data : list Z) (bits : nat) :
  (0 < 32 / bits)%nat →
  length (convert_vector_to_uint32 data [] bits) = ceil_div (length data) (32 / bits).
Proof.
  intros Hdp. unfold convert_vector_to_uint32.
  destruct (convert_loop_shape bits (32 / bits) data 0 0 0 []) as
    (q & r & acc & ws & Heq & Hlen & Hr & Hsum); [done..|].
  simpl in Heq, Hsum. rewrite Heq, Hsum, ceil_div_quot_rem by done.
  destruct (decide (r = 0)%nat) as [->|Hr0].
  - by rewrite decide_False by lia.
  - rewrite decide_True by lia. rewrite length_app. simpl. lia.
Qed.

(** X16: packing and reading back: for [bits_per_entry] dividing 32 and
    entries that fit in [bits_per_entry] bits, [convert_vector_to_uint32]
    leaves the words already in [serialized_data] in place, appends
    ceil(size / (32 / bits_per_entry)) words, and entry k is found in
    appended word k / (32 / bits_per_entry) by the shift-and-mask of the
    decoder, at shift (k mod (32 / bits_per_entry)) * bits_per_entry. *)
Theorem packed_entries_read_back (data serialized_data : list Z) (bits : nat) :
  (0 < bits)%nat → (32 mod bits = 0)%nat →
  Forall (λ d, 0 ≤ d < 2 ^ Z.of_nat bits) data →
  ∃ words : list Z,
    convert_vector_to_uint32 data serialized_data bits = serialized_data ++ words
    ∧ length words = ceil_div (length data) (32 / bits)
    ∧ Forall (λ w, 0 ≤ w < 2 ^ 32) words
    ∧ ∀ (k : nat) (d : Z), data !! k = Some d →
        ∃ w, words !! (k / (32 / bits))%nat = Some w
             ∧ extract_bits w (k mod (32 / bits) * bits) mod 2 ^ Z.of_nat bits = d.
Proof.
  intros Hbits Hdiv Hdata.
  assert (32 / bits * bits = 32)%nat as Hper
    by (pose proof (Nat.div_mod_eq 32 bits); lia).
  destruct (convert_vector_spec bits (32 / bits)%nat Hbits Hper data serialized_data)
    as (ws & Heq & Hlen & Hrange & Hval); [done..|].
  exists ws. split_and!; try done. intros k d Hk.
  destruct (packed_digit bits (32 / bits)%nat Hbits Hper data ws k d)
    as (w & Hw & Hwr & Hd); try done.
  exists w. split; [done|]. by rewrite extract_bits_div.
Qed.

Lemma packed_entries_read_back_witness :
  ∃ words : list Z,
    convert_vector_to_uint32 [9; 5; 3] [4; 7] 16 = [4; 7] ++ words
    ∧ length words = ceil_div (length [9; 5; 3]) (32 / 16)
    ∧ Forall (λ w, 0 ≤ w < 2 ^ 32) words
    ∧ ∀ (k : nat) (d : Z), [9; 5; 3] !! k = Some d →
        ∃ w, words !! (k / (32 / 16))%nat = Some w
             ∧ extract_bits w (k mod (32 / 16) * 16) mod 2 ^ Z.of_nat 16 = d.
Proof.
  apply (packed_entries_read_back [9; 5; 3] [4; 7] 16).
  - lia.
  - reflexivity.
  - repeat constructor; lia.
Defined.

(** X17: whatever the entries are, [convert_vector_to_uint32] only
    appends: its result is [serialized_data] followed by the words it
    writes into an empty vector, and it writes ceil(size / (32 /
    bits_per_entry)) of them (none for an empty [data]). *)
Theorem convert_vector_appends_fixed_count (data serialized_data : list Z) (bits : nat) :
  (0 < bits ≤ 32)%nat →
  convert_vector_to_uint32 data serialized_data bits
    = serialized_data ++ convert_vector_to_uint32 data [] bits
  ∧ length (convert_vector_to_uint32 data [] bits) = ceil_div (length data) (32 / bits)
  ∧ convert_vector_to_uint32 [] serialized_data bits = serialized_data.
Proof.
  intros Hbits. split; [apply convert_vector_append|]. split; [|done].
  apply convert_vector_length. apply Nat.div_str_pos. lia.
Qed.

Lemma convert_vector_appends_fixed_count_witness :
  convert_vector_to_uint32 [300; 70000; 1; 2; 3] [4; 7] 8
    = [4; 7] ++ convert_vector_to_uint32 [300; 70000; 1; 2; 3] [] 8
  ∧ length (convert_vector_to_uint32 [300; 70000; 1; 2; 3] [] 8)
    = ceil_div (length [300; 70000; 1; 2; 3]) (32 / 8)
  ∧ convert_vector_to_uint32 [] [4; 7] 8 = [4; 7].
Proof.
  apply (convert_vector_appends_fixed_count [300; 70000; 1; 2; 3] [4; 7] 8). lia.
Defined.

(** * Further properties of the voxel codec *)

Lemma bind_Err {A B} (e : error) (f : A → result B) : Err e ≫= f = Err e.
Proof. done. Qed.

Lemma bind_Ok_inv {A B} (m : result A) (f : A → result B) (y : B) :
  m ≫= f = Ok y → ∃ x, m = Ok x ∧ f x = Ok y.
Proof. destruct m as [x|e]; [|done]. rewrite bind_Ok. eauto. Qed.


Lemma at_Ok {A} (v : list A) (i : nat) (x : A) : at_ v i = Ok x → v !! i = Some x.
Proof. unfold at_. by destruct (v !! i); intros [= ->]. Qed.


Lemma for_each_slot_Ok (body : nat → result Z) (steps : nat) :
  ∀ (i : nat) (l : list Z),
  for_each_slot body i steps = Ok l →
  length l = steps ∧ ∀ k x, l !! k = Some x → body (i + k)%nat = Ok x.
Proof.
  induction steps as [|steps IH]; intros i l; simpl.
  - intros [= <-]. split; [done|]. intros k x Hk. by rewrite lookup_nil in Hk.
  - destruct (body i) as [x|e] eqn:Hx; [|done]. rewrite bind_Ok.
    destruct (for_each_slot body (S i) steps) as [xs|e] eqn:Hxs; [|done].
    rewrite bind_Ok. intros [= <-].
    destruct (IH (S i) xs Hxs) as [Hlen Hbody]. split; [simpl; lia|].
    intros [|k] y Hk; simpl in Hk.
    + injection Hk as <-. by rewrite Nat.add_0_r.
    + replace (i + S k)%nat with (S i + k)%nat by lia. by apply Hbody.
Qed.



Lemma slot_body_Ok (data : list Z) (off per_int b : nat) (trunc : Z → Z) (j : nat) (x : Z) :
  (word ← at_ data (off + j / per_int)%nat;
   Ok (trunc (extract_bits word (j mod per_int * b)))) = Ok x →
  ∃ w, data !! (off + j / per_int)%nat = Some w
       ∧ x = trunc (extract_bits w (j mod per_int * b)).
Proof.
  destruct (at_ data (off + j / per_int)) as [w|e'] eqn:Hw; [|done].
  rewrite bind_Ok. intros [= <-]. exists w. split; [by apply at_Ok|done].
Qed.

Lemma scatter_loop_Ok (indices counts : list Z) (steps : nat) :
  ∀ (i : nat) (vc vc' : list Z),
  scatter_loop indices counts i steps vc = Ok vc' →
  length vc' = length vc
  ∧ ∀ k x, (i ≤ k < i + steps)%nat → indices !! k = Some x →
           (Z.to_nat x < length vc)%nat.
Proof.
  induction steps as [|steps IH]; intros i vc vc'; simpl.
  - intros [= <-]. split; [done|]. intros; lia.
  - destruct (at_ indices i) as [idx|e] eqn:Hidx; [|done]. rewrite bind_Ok.
    destruct (at_ counts i) as [c|e] eqn:Hc; [|done]. rewrite bind_Ok.
    destruct (at_ vc (Z.to_nat idx)) as [old|e] eqn:Hold; [|done]. rewrite bind_Ok.
    intros Hrest. destruct (IH _ _ _ Hrest) as [Hlen Hin].
    rewrite length_insert in Hlen, Hin. split; [done|].
    intros k x Hk Hx. destruct (decide (k = i)) as [->|Hne].
    + apply at_Ok in Hidx. rewrite Hidx in Hx. injection Hx as <-.
      apply at_Ok in Hold. by eapply lookup_lt_Some.
    + apply (Hin k); [lia|done].
Qed.


Lemma ceil_div_last (n dp : nat) :
  (0 < n)%nat → (0 < dp)%nat → ceil_div n dp = S ((n - 1) / dp).
Proof.
  intros Hn Hdp. unfold ceil_div.
  replace (n + dp - 1)%nat with ((n - 1) + 1 * dp)%nat by lia.
  rewrite Nat.div_add by lia. lia.
Qed.

(** What a successful [readVoxelFromInt32] tells, in one statement. *)
Lemma read_inversion (TOP_N bits : nat) (data : list Z) (data_idx : nat)
    (target : ClassVoxel) (flag : bool) (data_idx' : nat) (voxel' : ClassVoxel) :
  (0 < 32 / bits)%nat →
  readVoxelFromInt32 TOP_N bits data data_idx target = Ok (flag, data_idx', voxel') →
  ∃ num_classes bytes_1 bytes_2 : Z,
    data !! data_idx = Some num_classes
    ∧ data !! S data_idx = Some bytes_1
    ∧ data !! S (S data_idx) = Some bytes_2
    ∧ data_idx' = (data_idx + voxel_words TOP_N bits num_classes)%nat
    ∧ (data_idx' ≤ length data)%nat
    ∧ belongs_count voxel' = uint8 (Z.land bytes_1 0x0000FFFF)
    ∧ foreign_count voxel' = uint8 (Z.shiftr (Z.land bytes_1 0xFFFF0000) 16)
    ∧ is_gt voxel' = negb (Z.land bytes_2 0x0000FFFF =? 0)
    ∧ (if decide (num_classes = 0) then
         current_index voxel' = -1 ∧ counts voxel' = counts target
         ∧ flag = negb (belongs_count voxel' =? 0) || negb (foreign_count voxel' =? 0)
       else
         current_index voxel' = uint8 (Z.shiftr (Z.land bytes_2 0xFFFF0000) 16)
         ∧ length (counts voxel') = (length (counts target) + Z.to_nat num_classes)%nat
         ∧ flag = true
         ∧ ∀ i, (i < TOP_N)%nat →
             ∃ w, data !! (S (S (S data_idx)) + i / 4)%nat = Some w
                  ∧ (Z.to_nat (uint8 (extract_bits w (i mod 4 * 8)))
                     < length (counts target) + Z.to_nat num_classes)%nat).
Proof.
  intros Hdp. unfold readVoxelFromInt32.
  destruct (at_ data data_idx) as [num_classes|e] eqn:H0; [|done]. rewrite bind_Ok.
  destruct (at_ data (S data_idx)) as [bytes_1|e] eqn:H1; [|done]. rewrite bind_Ok.
  destruct (at_ data (S (S data_idx))) as [bytes_2|e] eqn:H2; [|done]. rewrite bind_Ok.
  cbv zeta. apply at_Ok in H0, H1, H2. unfold voxel_words.
  pose proof (lookup_lt_Some _ _ _ H2) as Hlen2.
  destruct (decide (num_classes = 0)) as [HC|HC].
  - intros [= <- <- <-]. exists num_classes, bytes_1, bytes_2.
    unfold voxel_words. rewrite !decide_True by done.
    cbn [belongs_count foreign_count is_gt current_index counts].
    split_and!; try done; lia.
  - intros (indices & Hidx & Hread)%bind_Ok_inv.
    apply bind_Ok_inv in Hread as (read_counts & Hcnt & Hread).
    apply bind_Ok_inv in Hread as (vc' & Hsc & Hread).
    injection Hread as <- <- <-. exists num_classes, bytes_1, bytes_2.
    unfold voxel_words. rewrite !decide_False by done.
    cbn [belongs_count foreign_count is_gt current_index counts].
    change ((Nat.divmod (TOP_N + 4 - 1) 3 0 3).1) with (ceil_div TOP_N 4).
    apply for_each_slot_Ok in Hidx as [Hidx_len Hidx].
    apply for_each_slot_Ok in Hcnt as [Hcnt_len Hcnt].
    apply scatter_loop_Ok in Hsc as [Hsc_len Hsc].
    rewrite length_app, length_replicate in Hsc_len, Hsc.
    split_and!; try done; try lia.
    + (* the last word of each group was read, so it is within the data *)
      destruct (decide (TOP_N = 0)%nat) as [->|Hn].
      { assert (ceil_div 0 (32 / bits) = 0)%nat as ->
          by (unfold ceil_div; apply Nat.div_small; lia).
        change (ceil_div 0 4) with 0%nat. lia. }
      rewrite (ceil_div_last TOP_N 4), (ceil_div_last TOP_N (32 / bits)) by lia.
      destruct (lookup_lt_is_Some_2 read_counts (TOP_N - 1)) as [x Hx]; [lia|].
      apply Hcnt, slot_body_Ok in Hx as (w & Hw & _).
      apply lookup_lt_Some in Hw.
      rewrite (ceil_div_last TOP_N 4) in Hw by lia. rewrite Nat.add_0_l in Hw. lia.
    + intros i Hi.
      destruct (lookup_lt_is_Some_2 indices i) as [x Hx]; [lia|].
      pose proof (Hidx _ _ Hx) as Hbody. rewrite Nat.add_0_l in Hbody.
      apply slot_body_Ok in Hbody as (w & Hw & ->).
      exists w. split; [done|]. apply (Hsc i); [lia|done].
Qed.






(** X20: [readVoxelFromInt32] never writes a count outside the vector:
    when it returns for a first word [num_classes] other than 0, every one
    of the TOP_N decoded class indices is below the size of the extended
    counts (previous size + num_classes); into a voxel with empty counts,
    every decoded index is therefore below the declared class count. *)
Theorem readVoxelFromInt32_indices_within_counts (TOP_N bits : nat) (data : list Z)
    (data_idx : nat) (target : ClassVoxel) (flag : bool) (data_idx' : nat)
    (voxel' : ClassVoxel) (num_classes : Z) :
  (0 < bits ≤ 32)%nat →
  readVoxelFromInt32 TOP_N bits data data_idx target = Ok (flag, data_idx', voxel') →
  data !! data_idx = Some num_classes → num_classes ≠ 0 →
  ∀ i, (i < TOP_N)%nat →
    ∃ w, data !! (data_idx + 3 + i / 4)%nat = Some w
         ∧ (Z.to_nat (uint8 (extract_bits w (i mod 4 * 8)))
            < length (counts target) + Z.to_nat num_classes)%nat
         ∧ (counts target = [] → 0 < num_classes →
            uint8 (extract_bits w (i mod 4 * 8)) < num_classes).
Proof.
  intros Hbits Hread HC HC0 i Hi.
  apply read_inversion in Hread
    as (C & b1 & b2 & H0 & _ & _ & _ & _ & _ & _ & _ & Hrest);
    [|apply Nat.div_str_pos; lia].
  rewrite HC in H0. injection H0 as <-. rewrite decide_False in Hrest by done.
  destruct Hrest as (_ & _ & _ & Hidx). destruct (Hidx i Hi) as (w & Hw & Hlt).
  exists w. replace (data_idx + 3 + i / 4)%nat with (S (S (S data_idx)) + i / 4)%nat by lia.
  split; [done|]. split; [done|]. intros Hempty Hpos.
  rewrite Hempty in Hlt. change (length (@nil Z)) with 0%nat in Hlt.
  assert (0 ≤ uint8 (extract_bits w (i mod 4 * 8)))
    by (unfold uint8; apply Z.mod_pos_bound; lia).
  lia.
Qed.

Lemma readVoxelFromInt32_indices_within_counts_witness :
  ∃ w, [4; 0x0002000A; 0x00020000; 0x00030002; 0x00050009; 3] !! (0 + 3 + 2 / 4)%nat = Some w
       ∧ (Z.to_nat (uint8 (extract_bits w (2 mod 4 * 8)))
          < length (counts empty_voxel) + Z.to_nat 4)%nat
       ∧ (counts empty_voxel = [] → 0 < 4 →
          uint8 (extract_bits w (2 mod 4 * 8)) < 4).
Proof.
  apply (readVoxelFromInt32_indices_within_counts 3 16
           [4; 0x0002000A; 0x00020000; 0x00030002; 0x00050009; 3] 0 empty_voxel
           true 6 scenario_voxel 4).
  - lia.
  - by vm_compute.
  - reflexivity.
  - discriminate.
  - lia.
Defined.

(** * Further properties of the encoder and of block streams *)

Lemma convert_append (TOP_N bits : nat) (voxel : ClassVoxel) (data0 : list Z) :
  convertVoxelToInt32 TOP_N bits voxel data0
  = match convertVoxelToInt32 TOP_N bits voxel [] with
    | Ok (flag, enc) => Ok (flag, data0 ++ enc)
    | Err e => Err e
    end.
Proof.
  unfold convertVoxelToInt32. case_decide; [|done]. case_decide.
  - by rewrite <-!app_assoc.
  - destruct (get_top_n_elems _ _ _ _) as [[indices_list score_counts]|e]; [|done].
    rewrite !bind_Ok. cbv beta iota zeta.
    rewrite (convert_vector_append score_counts (convert_vector_to_uint32 _ _ _)).
    rewrite (convert_vector_append indices_list).
    rewrite (convert_vector_append score_counts (convert_vector_to_uint32 _ (_ ++ _) _)).
    rewrite (convert_vector_append indices_list (_ ++ _)).
    do 2 f_equal. by rewrite <-!app_assoc.
Qed.

Lemma get_top_n_elems_lengths (all_items : list Z) (n : nat) (indices counts : list Z) :
  get_top_n_elems all_items [] [] n = Ok (indices, counts) →
  length indices = n ∧ length counts = n.
Proof.
  unfold get_top_n_elems. rewrite pop_loop_popped.
  set (q := push_loop _ _ _ _).
  destruct (decide (n ≤ length q)%nat) as [Hle|Hgt].
  - destruct (popped_spec n q Hle) as (out & rest & -> & _ & Hlen & _).
    intros [= <- <-]. by rewrite !length_fmap.
  - by rewrite popped_short by lia.
Qed.

(** X21: the outcome of [convertVoxelToInt32] is decided by the class
    count C alone: with C >= 258 the CHECK aborts; with C = 0 three words
    are appended and the flag tells whether belongs_count or foreign_count
    is non-zero; with 0 < C < 258 the call returns true when TOP_N is at
    most C mod 256, after appending C, the two header words and exactly
    ceil(TOP_N / 4) + ceil(TOP_N / (32 / COUNTER_SIZE_BITS)) payload
    words, and takes the top of an empty queue otherwise.  The words that
    were in [data] are never changed. *)
Theorem convertVoxelToInt32_outcome (TOP_N bits : nat) (voxel : ClassVoxel)
    (data : list Z) :
  (0 < bits ≤ 32)%nat →
  let C := length (counts voxel) in
  let w1 := header (belongs_count voxel) (foreign_count voxel) in
  let w2 := header (Z.b2z (is_gt voxel)) (current_index voxel) in
  if decide (258 ≤ C)%nat then
    convertVoxelToInt32 TOP_N bits voxel data = Err CheckFailed
  else if decide (C = 0)%nat then
    convertVoxelToInt32 TOP_N bits voxel data
    = Ok (negb (belongs_count voxel =? 0) || negb (foreign_count voxel =? 0),
          data ++ [0; w1; w2])
  else if decide (TOP_N ≤ Z.to_nat (Z.of_nat C mod 2 ^ 8))%nat then
    ∃ payload : list Z,
      convertVoxelToInt32 TOP_N bits voxel data
      = Ok (true, data ++ Z.of_nat C :: w1 :: w2 :: payload)
      ∧ length payload = (ceil_div TOP_N 4 + ceil_div TOP_N (32 / bits))%nat
  else
    convertVoxelToInt32 TOP_N bits voxel data = Err EmptyHeapTop.
Proof.
  intros Hbits. cbv zeta. unfold header.
  rewrite convert_append. unfold convertVoxelToInt32.
  destruct (decide (258 ≤ length (counts voxel))%nat) as [H258|H258];
    destruct (decide (length (counts voxel) < 258)%nat); try lia; [done|].
  assert (uint32 (Z.of_nat (length (counts voxel))) = Z.of_nat (length (counts voxel)))
    as -> by (apply Z.mod_small; lia).
  destruct (decide (length (counts voxel) = 0)%nat) as [HC0|HC0]; [by rewrite HC0|].
  destruct (get_top_n_elems (counts voxel) [] [] TOP_N)
    as [[indices_list score_counts]|e] eqn:Hget.
  - rewrite bind_Ok. cbv beta iota zeta.
    destruct (get_top_n_elems_lengths _ _ _ _ Hget) as [Hlen_i Hlen_c].
    revert Hget. unfold get_top_n_elems, uint8. rewrite pop_loop_popped. intros Hget.
    rewrite decide_True.
    2:{ destruct (decide (TOP_N ≤ Z.to_nat (Z.of_nat (length (counts voxel)) mod 2 ^ 8))%nat);
          [done|].
        rewrite popped_short in Hget by (rewrite queue_length; lia). done. }
    rewrite (convert_vector_append score_counts), (convert_vector_append indices_list).
    eexists. rewrite <-!app_assoc. split; [done|].
    rewrite length_app, !convert_vector_length, Hlen_i, Hlen_c; [done|..].
    + apply Nat.div_str_pos. lia.
    + simpl. lia.
  - rewrite bind_Err.
    revert Hget. unfold get_top_n_elems, uint8. rewrite pop_loop_popped. intros Hget.
    rewrite decide_False.
    2:{ intros Hle.
        destruct (popped_spec TOP_N (push_loop (counts voxel) 0
                    (Z.to_nat (Z.of_nat (length (counts voxel)) mod 2 ^ 8)) []))
          as (out & rest & Heq & _); [by rewrite queue_length|].
        by rewrite Heq in Hget. }
    rewrite popped_short in Hget; [by injection Hget as <-|].
    rewrite queue_length.
    destruct (decide (TOP_N ≤ Z.to_nat (Z.of_nat (length (counts voxel)) mod 2 ^ 8))%nat)
      as [Hle|]; [|lia].
    destruct (popped_spec TOP_N (push_loop (counts voxel) 0
                (Z.to_nat (Z.of_nat (length (counts voxel)) mod 2 ^ 8)) []))
      as (out & rest & Heq & _); [by rewrite queue_length|].
    by rewrite Heq in Hget.
Qed.

Lemma convertVoxelToInt32_outcome_witness :
  ∃ payload : list Z,
    convertVoxelToInt32 3 16 scenario_voxel [1; 2]
    = Ok (true, [1; 2] ++ 4 :: header 10 2 :: header 0 2 :: payload)
    ∧ length payload = (ceil_div 3 4 + ceil_div 3 (32 / 16))%nat.
Proof.
  apply (convertVoxelToInt32_outcome 3 16 scenario_voxel [1; 2]). lia.
Defined.

Section MoreStreamFacts.
Variables TOP_N bits : nat.

Lemma serialize_loop_concat (voxels : list ClassVoxel) :
  ∀ data0 data : list Z,
  serialize_loop TOP_N bits voxels data0 = Ok data ↔
  ∃ encs : list (list Z),
    Forall2 (λ voxel enc, ∃ flag, convertVoxelToInt32 TOP_N bits voxel [] = Ok (flag, enc))
      voxels encs
    ∧ data = data0 ++ concat encs.
Proof.
  induction voxels as [|voxel voxels IH]; intros data0 data; simpl.
  - split.
    + intros [= <-]. exists []. split; [constructor|]. by rewrite app_nil_r.
    + intros (encs & ->%Forall2_nil_inv_l & ->). by rewrite app_nil_r.
  - rewrite convert_append.
    destruct (convertVoxelToInt32 TOP_N bits voxel []) as [[flag enc]|e] eqn:Hconv.
    + rewrite bind_Ok. cbv beta iota. rewrite IH. split.
      * intros (encs & Hencs & ->). exists (enc :: encs). simpl.
        rewrite <-app_assoc. split; [|done]. constructor; eauto.
      * intros (encs' & (enc' & encs & (flag' & Henc) & Hencs & ->)%Forall2_cons_inv_l & ->).
        rewrite Hconv in Henc. injection Henc as <- <-. exists encs. simpl. by rewrite <-app_assoc.
    + rewrite bind_Err. split; [done|].
      intros (encs' & (enc' & encs & (flag' & Henc) & _)%Forall2_cons_inv_l & _).
      by rewrite Hconv in Henc.
Qed.


End MoreStreamFacts.

(** X22: a block is serialised voxel by voxel, in storage order: (for
    COUNTER_SIZE_BITS dividing 32) [serializeToIntegers] returns [data]
    exactly when every voxel can be encoded on its own and [data] is the
    concatenation of those encodings. *)
Theorem serializeToIntegers_concatenates (TOP_N bits : nat) (b : Block) (data : list Z) :
  (32 mod bits = 0)%nat →
  serializeToIntegers TOP_N bits b = Ok data ↔
  ∃ encs : list (list Z),
    Forall2 (λ voxel enc, ∃ flag, convertVoxelToInt32 TOP_N bits voxel [] = Ok (flag, enc))
      (voxels_ b) encs
    ∧ data = concat encs.
Proof.
  intros Hdiv. unfold serializeToIntegers. rewrite decide_True by done.
  apply serialize_loop_concat.
Qed.

Lemma serializeToIntegers_concatenates_witness :
  serializeToIntegers 3 16 {| voxels_ := [scenario_voxel; empty_voxel] |}
    = Ok ([4; 0x0002000A; 0x00020000; 0x00030002; 0x00050009; 3] ++ [0; 0; 0xFFFF0000])
  ↔ ∃ encs : list (list Z),
      Forall2 (λ voxel enc, ∃ flag, convertVoxelToInt32 3 16 voxel [] = Ok (flag, enc))
        [scenario_voxel; empty_voxel] encs
      ∧ [4; 0x0002000A; 0x00020000; 0x00030002; 0x00050009; 3] ++ [0; 0; 0xFFFF0000]
        = concat encs.
Proof.
  apply (serializeToIntegers_concatenates 3 16
           {| voxels_ := [scenario_voxel; empty_voxel] |}).
  reflexivity.
Defined.



Section BlockContents.
Variables TOP_N bits : nat.
Hypothesis Hbits : (0 < bits)%nat.
Hypothesis Hdiv : (32 mod bits = 0)%nat.




End BlockContents.



(** * The range guard of the decoder *)









